(** * Parcel core: the committed-asset content store and the symbol resolver

    A shallow embedding of [CommittedAsset] (the per-asset, lazily
    materialised content store) and of the bundle-graph declarations of
    [packages/core/types/index.js].

    The content store is asynchronous JavaScript.  Its methods are embedded
    as programs of a small free monad ([Prog]) whose operations are the
    effects the class performs: reads and writes of the four memo slots,
    calls to the cache and to the code generator, promise construction and
    [await].  A run-to-completion event loop ([tick], [run]) executes them:
    a promise heap, the reactions registered on pending promises, the FIFO
    microtask queue, and the external operations in flight. *)

From Stdlib Require Import Strings.String Strings.Byte Lists.List Lia.
From stdpp Require Import base option gmap sets list strings.

Local Open Scope string_scope.

(** ** Values *)

Module Store.

Definition Key := string.

(** A promise is named by its allocation index in the heap. *)
Definition pid := nat.

(** JavaScript error objects: the message and the optional [code] that
    the cache sets on I/O failures ([err.code === 'ENOENT']). *)
Record JsError := MkError { message : string; code : option string }.

(** [new Error('Asset has no content')] *)
Definition NoContentError : JsError :=
  MkError "Asset has no content" None.

(** Calling a value that is not a function. *)
Definition NotAFunction : JsError :=
  MkError "content is not a function" None.

(** The two closures of type [() => Readable] that [getContent] builds. *)
Inductive Producer :=
| CacheStreamProducer (contentKey : Key)   (* () => this.options.cache.getStream(contentKey) *)
| GeneratedProducer (generated : pid).     (* () => streamFromPromise(generated) *)

(** Readable streams, named by what they read. *)
Inductive Readable :=
| CacheReadable (key : Key)                (* cache.getStream(key) *)
| PromiseReadable (p : pid)                (* streamFromPromise(p) *)
| GeneratedReadable (data : list byte).    (* a stream that the generator made *)

(** A source map object of [@parcel/source-map], named by the flatbuffer
    that [toBuffer()] serializes it to.  Constructing one from bytes,
    [new SourceMap(buffer)], is the library's business: see
    [new_SourceMap] in [Env]. *)
Record SourceMap := MkSourceMap { toBuffer : list byte }.

(** [deserializeRaw(serializedAst)]: the store never inspects an AST. *)
Inductive AST := deserializeRaw (serializedAst : list byte).

Inductive Val :=
| VUndefined
| VNull
| VString (s : string)
| VBuffer (b : list byte)
| VFunction (f : Producer)
| VPromise (p : pid)
| VReadable (r : Readable)
| VSourceMap (sm : SourceMap)
| VAST (a : AST)
| VGenerateOutput (content : Val) (map : option SourceMap).

(** [v == null] *)
Definition is_nullish (v : Val) : bool :=
  match v with VUndefined | VNull => true | _ => false end.

(** [typeof v === 'string' || v instanceof Buffer] *)
Definition is_string_or_buffer (v : Val) : bool :=
  match v with VString _ | VBuffer _ => true | _ => false end.

(** [typeof v === 'function'] *)
Definition is_function (v : Val) : bool :=
  match v with VFunction _ => true | _ => false end.

(** Truthiness, as tested by [if (mapBuffer)]. *)
Definition truthy (v : Val) : bool :=
  match v with
  | VUndefined | VNull => false
  | VString s => negb (String.eqb s "")
  | _ => true
  end.

(** Strings are held as their UTF-8 bytes, so [Buffer.from(string)] and
    [buffer.toString()] are the two directions of the same bijection. *)
Definition Buffer_from (v : Val) : list byte :=
  match v with
  | VString s => list_byte_of_string s
  | VBuffer b => b
  | _ => []
  end.

Definition toString (v : Val) : string :=
  match v with
  | VString s => s
  | VBuffer b => string_of_list_byte b
  | _ => ""
  end.

(** [err.code === 'ENOENT'] *)
Definition is_ENOENT (err : JsError) : bool :=
  bool_decide (code err = Some "ENOENT").

(** ** The asset value and its collaborators *)

(** The fields of [Asset] (the committed value) that the store reads. *)
Record Asset := MkAsset {
  contentKey : option Key;
  mapKey : option Key;
  astKey : option Key
}.

(** [export type Blob = string | Buffer | Readable]: what the [content] of
    a [GenerateOutput] may be.  A stream is named by the bytes it yields.
    No blob is a function, so the test [typeof content !== 'function'] in
    [getContent] holds for every output of this type, a stream included. *)
Inductive Blob :=
| BString (s : string)
| BBuffer (b : list byte)
| BReadable (data : list byte).

Definition blob_val (b : Blob) : Val :=
  match b with
  | BString s => VString s
  | BBuffer b => VBuffer b
  | BReadable data => VReadable (GeneratedReadable data)
  end.

(** The collaborators: [options.cache] and [generateFromAST], each given by
    the outcome its promise (or stream) settles with, and the constructor
    of [SourceMap], which returns a source map or throws. *)
Record Env := MkEnv {
  cache_getBlob : Key -> JsError + list byte;
  cache_getStream : Key -> JsError + list byte;
  generateFromAST : Asset -> JsError + (Blob * option SourceMap);
  new_SourceMap : list byte -> JsError + SourceMap
}.

(** Calls that leave the asset, in the order they are made. *)
Inductive Event :=
| EvGetBlob (key : Key)
| EvGetStream (key : Key)
| EvGenerateFromAST
| EvNewSourceMap
| EvDeserializeRaw.

#[export] Instance Event_eq_dec : EqDecision Event.
Proof. solve_decision. Defined.

(** ** Programs *)

Inductive Slot := Content | MapBuffer | Map | Ast.

Inductive Prog : Type :=
| Return (v : Val)
| Throw (e : JsError)
| ReadSlot (s : Slot) (k : option pid -> Prog)
| WriteSlot (s : Slot) (p : pid) (k : Prog)
| CacheGetBlob (key : Key) (k : pid -> Prog)
| CacheGetStream (key : Key) (k : Readable -> Prog)
| GenerateFromAST (k : pid -> Prog)
| BufferStream (r : Readable) (k : pid -> Prog)
| PromiseResolve (v : Val) (k : pid -> Prog)
| Then (p : pid) (cb : Val -> Prog) (k : pid -> Prog)
| Async (body : Prog) (k : pid -> Prog)
| Await (v : Val) (k : Val -> Prog) (h : JsError -> Prog)
| LogEvent (ev : Event) (k : Prog).

(** Sequencing: run [m], pass what it returns to [f]; a throw skips [f]. *)
Fixpoint bind (m : Prog) (f : Val -> Prog) : Prog :=
  match m with
  | Return v => f v
  | Throw e => Throw e
  | ReadSlot s k => ReadSlot s (fun x => bind (k x) f)
  | WriteSlot s p k => WriteSlot s p (bind k f)
  | CacheGetBlob key k => CacheGetBlob key (fun x => bind (k x) f)
  | CacheGetStream key k => CacheGetStream key (fun x => bind (k x) f)
  | GenerateFromAST k => GenerateFromAST (fun x => bind (k x) f)
  | BufferStream r k => BufferStream r (fun x => bind (k x) f)
  | PromiseResolve v k => PromiseResolve v (fun x => bind (k x) f)
  | Then p cb k => Then p cb (fun x => bind (k x) f)
  | Async body k => Async body (fun x => bind (k x) f)
  | Await v k h => Await v (fun x => bind (k x) f) (fun e => bind (h e) f)
  | LogEvent ev k => LogEvent ev (bind k f)
  end.

Declare Scope prog_scope.
Delimit Scope prog_scope with prog.
Notation "'do' x <- op ; rest" := (op (fun x => rest))
  (at level 10, x binder, op at level 10, rest at level 200,
   format "'[v' 'do'  x  <-  op ; '/' rest ']'") : prog_scope.
Notation "'do' x <<- m ; rest" := (bind m (fun x => rest))
  (at level 10, x binder, m at level 10, rest at level 200,
   format "'[v' 'do'  x  <<-  m ; '/' rest ']'") : prog_scope.

(** [await v] outside any [try]. *)
Definition await (v : Val) (k : Val -> Prog) : Prog := Await v k Throw.

(** An [async] function or arrow called at once: the body runs up to its
    first [await], and the call evaluates to the promise of its result. *)
Definition async (body : Prog) : Prog := Async body (fun r => Return (VPromise r)).

(** The value of a slot as an expression: a promise or [undefined]. *)
Definition slot_val (s : option pid) : Val :=
  match s with Some p => VPromise p | None => VUndefined end.

(** [content()]: calling what [getContent] returned. *)
Definition call (content : Val) (k : Readable -> Prog) : Prog :=
  match content with
  | VFunction (CacheStreamProducer contentKey) => CacheGetStream contentKey k
  | VFunction (GeneratedProducer generated) => k (PromiseReadable generated)
  | _ => Throw NotAFunction
  end.

(** ** The event loop *)

(** How a promise has settled. *)
Inductive Outcome :=
| Fulfilled (v : Val)
| Rejected (e : JsError).

(** The heap lists the settled promises, the latest first; a promise that
    is not listed is pending. *)
Fixpoint outcome (h : list (pid * Outcome)) (p : pid) : option Outcome :=
  match h with
  | [] => None
  | (q, o) :: h' => if Nat.eqb p q then Some o else outcome h' p
  end.

(** What runs when an awaited promise settles, and the promise that the
    outcome of that run settles in turn: the rest of an [async] body with
    the promise of its call, or a [then] callback with the derived
    promise. *)
Record Reaction := MkReaction {
  on_fulfil : Val -> Prog;
  on_reject : JsError -> Prog;
  settles : pid
}.

(** Operations whose promise is settled from outside the microtask queue. *)
Inductive External :=
| ExtGetBlob (key : Key)
| ExtGenerate
| ExtBufferStream (r : Readable).

Record Machine := MkMachine {
  content : option pid;       (* this.content *)
  mapBuffer : option pid;     (* this.mapBuffer *)
  map : option pid;           (* this.map *)
  ast : option pid;           (* this.ast *)
  heap : list (pid * Outcome);
  next : pid;
  waiting : list (pid * Reaction);
  microtasks : list (Prog * pid);
  inflight : list (pid * External);
  log : list Event
}.

(** [new CommittedAsset(value, options)]: nothing memoized, nothing queued. *)
Definition fresh : Machine :=
  MkMachine None None None None [] 0 [] [] [] [].

Definition slot (s : Slot) (m : Machine) : option pid :=
  match s with
  | Content => content m
  | MapBuffer => mapBuffer m
  | Map => map m
  | Ast => ast m
  end.

Definition set_slot (s : Slot) (p : pid) (m : Machine) : Machine :=
  match s with
  | Content => MkMachine (Some p) (mapBuffer m) (map m) (ast m) (heap m) (next m) (waiting m) (microtasks m) (inflight m) (log m)
  | MapBuffer => MkMachine (content m) (Some p) (map m) (ast m) (heap m) (next m) (waiting m) (microtasks m) (inflight m) (log m)
  | Map => MkMachine (content m) (mapBuffer m) (Some p) (ast m) (heap m) (next m) (waiting m) (microtasks m) (inflight m) (log m)
  | Ast => MkMachine (content m) (mapBuffer m) (map m) (Some p) (heap m) (next m) (waiting m) (microtasks m) (inflight m) (log m)
  end.

Definition with_heap (h : list (pid * Outcome)) (m : Machine) : Machine :=
  MkMachine (content m) (mapBuffer m) (map m) (ast m) h (next m) (waiting m) (microtasks m) (inflight m) (log m).

Definition with_waiting (w : list (pid * Reaction)) (m : Machine) : Machine :=
  MkMachine (content m) (mapBuffer m) (map m) (ast m) (heap m) (next m) w (microtasks m) (inflight m) (log m).

Definition with_microtasks (q : list (Prog * pid)) (m : Machine) : Machine :=
  MkMachine (content m) (mapBuffer m) (map m) (ast m) (heap m) (next m) (waiting m) q (inflight m) (log m).

Definition with_inflight (x : list (pid * External)) (m : Machine) : Machine :=
  MkMachine (content m) (mapBuffer m) (map m) (ast m) (heap m) (next m) (waiting m) (microtasks m) x (log m).

Definition emit (ev : Event) (m : Machine) : Machine :=
  MkMachine (content m) (mapBuffer m) (map m) (ast m) (heap m) (next m) (waiting m) (microtasks m) (inflight m) (log m ++ [ev]).

(** A new pending promise. *)
Definition alloc (m : Machine) : pid * Machine :=
  (next m,
   MkMachine (content m) (mapBuffer m) (map m) (ast m) (heap m) (S (next m)) (waiting m) (microtasks m) (inflight m) (log m)).

Definition enqueue (job : Prog * pid) (m : Machine) : Machine :=
  with_microtasks (microtasks m ++ [job]) m.

Definition job_of (o : Outcome) (rx : Reaction) : Prog * pid :=
  match o with
  | Fulfilled v => (on_fulfil rx v, settles rx)
  | Rejected e => (on_reject rx e, settles rx)
  end.

(** Register [rx] on [p]: queued at once when [p] has settled. *)
Definition subscribe (p : pid) (rx : Reaction) (m : Machine) : Machine :=
  match outcome (heap m) p with
  | None => with_waiting (waiting m ++ [(p, rx)]) m
  | Some o => enqueue (job_of o rx) m
  end.

(** Settle [p]: its reactions become microtasks, in registration order. *)
Definition settle (p : pid) (o : Outcome) (m : Machine) : Machine :=
  let mine := filter (fun w => fst w = p) (waiting m) in
  let others := filter (fun w => fst w <> p) (waiting m) in
  with_microtasks (microtasks m ++ List.map (fun w => job_of o (snd w)) mine)
    (with_waiting others (with_heap ((p, o) :: heap m) m)).

(** Resolve [r] with [v]: a promise is followed, anything else fulfils. *)
Definition resolve (r : pid) (v : Val) (m : Machine) : Machine :=
  match v with
  | VPromise q => subscribe q (MkReaction Return Throw r) m
  | _ => settle r (Fulfilled v) m
  end.

(** How a synchronous run of a program ends. *)
Inductive Completion :=
| Normal (v : Val)
| Abrupt (e : JsError)
| Suspended (v : Val) (k : Val -> Prog) (h : JsError -> Prog).

(** The end of a run whose outcome belongs to promise [r]. *)
Definition complete (r : pid) (c : Completion) (m : Machine) : Machine :=
  match c with
  | Normal v => resolve r v m
  | Abrupt e => settle r (Rejected e) m
  | Suspended (VPromise q) k h => subscribe q (MkReaction k h r) m
  | Suspended v k h => enqueue (k v, r) m
  end.

Definition start (op : External) (m : Machine) : pid * Machine :=
  let (p, m') := alloc m in
  (p, with_inflight (inflight m' ++ [(p, op)]) m').

(** Run a program up to its end or its first [await]. *)
Fixpoint exec (p : Prog) (m : Machine) : Machine * Completion :=
  match p with
  | Return v => (m, Normal v)
  | Throw e => (m, Abrupt e)
  | ReadSlot s k => exec (k (slot s m)) m
  | WriteSlot s q k => exec k (set_slot s q m)
  | CacheGetBlob key k =>
      let (q, m') := start (ExtGetBlob key) (emit (EvGetBlob key) m) in
      exec (k q) m'
  | CacheGetStream key k => exec (k (CacheReadable key)) (emit (EvGetStream key) m)
  | GenerateFromAST k =>
      let (q, m') := start ExtGenerate (emit EvGenerateFromAST m) in
      exec (k q) m'
  | BufferStream r k =>
      let (q, m') := start (ExtBufferStream r) m in
      exec (k q) m'
  | PromiseResolve v k =>
      let (q, m') := alloc m in
      exec (k q) (resolve q v m')
  | Then q cb k =>
      let (d, m') := alloc m in
      exec (k d) (subscribe q (MkReaction cb Throw d) m')
  | Async body k =>
      let (r, m1) := alloc m in
      let (m2, c) := exec body m1 in
      exec (k r) (complete r c m2)
  | Await v k h => (m, Suspended v k h)
  | LogEvent ev k => exec k (emit ev m)
  end.

Definition run_job (job : Prog * pid) (m : Machine) : Machine :=
  let (m', c) := exec (fst job) m in complete (snd job) c m'.

Section CommittedAsset.

Variable env : Env.     (* this.options.cache, generateFromAST *)
Variable this : Asset.  (* this.value *)

(** The bytes that a stream made from [v] yields: those of [v] when it is
    a generated stream, the bytes of a string or buffer otherwise. *)
Definition stream_bytes (v : Val) : list byte :=
  match v with
  | VReadable (GeneratedReadable data) => data
  | _ => Buffer_from v
  end.

Definition as_buffer (r : JsError + list byte) : Outcome :=
  match r with
  | inl e => Rejected e
  | inr b => Fulfilled (VBuffer b)
  end.

(** Modelled from the spec: [bufferStream] and [streamFromPromise] of
    [@parcel/utils], which CommittedAsset imports; "drain the content
    producer into a buffer", "wraps the pending resolution in a stream
    adapter".  The buffer of a stream holds all its bytes, and the stream
    of a promise yields the bytes of the promise's value once it has
    settled (those of the stream, when the value is a stream), or fails as
    the promise did.  [outcome_of] is the outcome of an external
    operation, once it can complete; the cache and the code generator
    answer as [env] says. *)
Definition outcome_of (op : External) (m : Machine) : option Outcome :=
  match op with
  | ExtGetBlob key => Some (as_buffer (cache_getBlob env key))
  | ExtGenerate =>
      Some match generateFromAST env this with
           | inl e => Rejected e
           | inr (content, map) => Fulfilled (VGenerateOutput (blob_val content) map)
           end
  | ExtBufferStream (CacheReadable key) => Some (as_buffer (cache_getStream env key))
  | ExtBufferStream (GeneratedReadable data) => Some (Fulfilled (VBuffer data))
  | ExtBufferStream (PromiseReadable p) =>
      match outcome (heap m) p with
      | None => None
      | Some (Fulfilled v) => Some (Fulfilled (VBuffer (stream_bytes v)))
      | Some (Rejected e) => Some (Rejected e)
      end
  end.

(** The oldest external operation that can complete. *)
Fixpoint pick (ops : list (pid * External)) (m : Machine)
  : option (pid * Outcome * list (pid * External)) :=
  match ops with
  | [] => None
  | (p, op) :: rest =>
      match outcome_of op m with
      | Some o => Some (p, o, rest)
      | None =>
          match pick rest m with
          | Some (q, o, rest') => Some (q, o, (p, op) :: rest')
          | None => None
          end
      end
  end.

(** One turn: the oldest microtask; with none queued, the completion of
    one external operation.  [None]: nothing left to do.  As in the host's
    event loop, an external operation (a cache read, a code generation, the
    draining of a stream) completes only between microtask checkpoints;
    among those that can complete the oldest goes first.  A promise that
    adopts another is settled by one reaction on it. *)
Definition tick (m : Machine) : option Machine :=
  match microtasks m with
  | job :: rest => Some (run_job job (with_microtasks rest m))
  | [] =>
      match pick (inflight m) m with
      | Some (p, o, rest) => Some (settle p o (with_inflight rest m))
      | None => None
      end
  end.

Fixpoint run (fuel : nat) (m : Machine) : Machine :=
  match fuel with
  | 0 => m
  | S n => match tick m with Some m' => run n m' | None => m end
  end.

Definition quiescent (m : Machine) : Prop := tick m = None.

(** ** The methods of [CommittedAsset] *)

Local Open Scope prog_scope.

(** [({content}) => ...] applied to what [generateFromAST] resolved to. *)
Definition out_content (out : Val) : Val :=
  match out with VGenerateOutput content _ => content | _ => VUndefined end.

(** [out.map?.toBuffer()] *)
Definition out_map_toBuffer (out : Val) : Val :=
  match out with
  | VGenerateOutput _ (Some sm) => VBuffer (toBuffer sm)
  | _ => VUndefined
  end.

Definition getContent : Prog :=
  do content <- ReadSlot Content;
  match content with
  | None =>
      match contentKey this with
      | Some contentKey => Return (VFunction (CacheStreamProducer contentKey))
      | None =>
          match astKey this with
          | Some _ =>
              do g <- GenerateFromAST;
              do generated <- Then g (fun out =>
                let content := out_content out in
                if is_function content then Return content
                else do p <- PromiseResolve content;
                     WriteSlot Content p (Return content));
              Return (VFunction (GeneratedProducer generated))
          | None => Throw NoContentError
          end
      end
  | Some _ =>
      do content <- ReadSlot Content;
      Return (slot_val content)
  end.

(** The part of [getCode] after [content] has been awaited. *)
Definition getCode_rest (content : Val) : Prog :=
  if is_string_or_buffer content then Return (VString (toString content))
  else if negb (is_nullish content) then
    call content (fun stream =>
    do p <- BufferStream stream;
    WriteSlot Content p (
    do c <- ReadSlot Content;
    await (slot_val c) (fun v => Return (VString (toString v)))))
  else Return (VString "").

Definition getCode : Prog :=
  async (
    do c <- ReadSlot Content;
    match c, contentKey this with
    | None, Some contentKey =>
        do p <- CacheGetBlob contentKey;
        WriteSlot Content p (
        do c' <- ReadSlot Content;
        await (slot_val c') getCode_rest)
    | _, _ =>
        do v <<- getContent;
        await v getCode_rest
    end).

(** The part of [getBuffer] after [content] has been awaited. *)
Definition getBuffer_rest (content : Val) : Prog :=
  if is_nullish content then Return (VBuffer [])
  else if is_string_or_buffer content then Return (VBuffer (Buffer_from content))
  else
    call content (fun stream =>
    do p <- BufferStream stream;
    WriteSlot Content p (
    do c <- ReadSlot Content;
    Return (slot_val c))).

Definition getBuffer : Prog :=
  async (
    do v <<- getContent;
    await v getBuffer_rest).

Definition getStream : Prog :=
  do content <<- getContent;
  match content with
  | VPromise p => Return (VReadable (PromiseReadable p))
  | _ => call content (fun r => Return (VReadable r))
  end.

Definition getMapBuffer : Prog :=
  do mb <- ReadSlot MapBuffer;
  match mapKey this, mb with
  | Some mapKey, None => fun rest =>
      do r <- Async (
        do p <- CacheGetBlob mapKey;
        Await (VPromise p) Return (fun err =>
          if is_ENOENT err && bool_decide (astKey this <> None) then
            do g <- GenerateFromAST;
            await (VPromise g) (fun out => Return (out_map_toBuffer out))
          else Throw err));
      WriteSlot MapBuffer r rest
  | _, _ => fun rest => rest
  end (
  do mb <- ReadSlot MapBuffer;
  match mb with
  | Some p => Return (VPromise p)
  | None => do p <- PromiseResolve VUndefined; Return (VPromise p)
  end).

(** The part of the arrow in [getMap] after [mapBuffer] has been awaited.
    [new SourceMap(mapBuffer)] throws when the library rejects the bytes. *)
Definition getMap_rest (mapBuffer : Val) : Prog :=
  if truthy mapBuffer then
    LogEvent EvNewSourceMap (
    match new_SourceMap env (Buffer_from mapBuffer) with
    | inr sm => Return (VSourceMap sm)
    | inl e => Throw e
    end)
  else Return VUndefined.

Definition getMap : Prog :=
  do mp <- ReadSlot Map;
  match mp with
  | None => fun rest =>
      do r <- Async (
        do v <<- getMapBuffer;
        await v getMap_rest);
      WriteSlot Map r rest
  | Some _ => fun rest => rest
  end (
  do mp <- ReadSlot Map;
  Return (slot_val mp)).

Definition getAST : Prog :=
  match astKey this with
  | None => do p <- PromiseResolve VNull; Return (VPromise p)
  | Some astKey =>
      do a <- ReadSlot Ast;
      match a with
      | None => fun rest =>
          do b <- CacheGetBlob astKey;
          do p <- Then b (fun serializedAst =>
            LogEvent EvDeserializeRaw (
            Return (VAST (deserializeRaw (Buffer_from serializedAst)))));
          WriteSlot Ast p rest
      | Some _ => fun rest => rest
      end (
      do a <- ReadSlot Ast;
      Return (slot_val a))
  end.

End CommittedAsset.

(** ** Calls, lifetimes and what they cost *)

(** The state of the promise that a call returned, in a later state. *)
Definition settled (c : Completion) (m : Machine) : option Outcome :=
  match c with
  | Normal (VPromise p) => outcome (heap m) p
  | _ => None
  end.

(** The state of the promise held in a memo slot. *)
Definition memo (s : Slot) (m : Machine) : option Outcome :=
  match slot s m with
  | Some p => outcome (heap m) p
  | None => None
  end.

(** [n] calls of one method within a single synchronous turn: the second
    starts before any [await] of the first has resumed. *)
Fixpoint calls (p : Prog) (n : nat) (m : Machine) : Machine * list Completion :=
  match n with
  | 0 => (m, [])
  | S n' =>
      let (m1, c) := exec p m in
      let (m2, cs) := calls p n' m1 in
      (m2, c :: cs)
  end.

(** Cache reads and code generations. *)
Definition is_fetch (ev : Event) : bool :=
  match ev with
  | EvGetBlob _ | EvGetStream _ | EvGenerateFromAST => true
  | _ => false
  end.

Definition fetches (l : list Event) : nat := length (List.filter is_fetch l).

(** The memoization property as the specification words it: [n] concurrent
    calls of [p], followed by [fuel] turns, make at most one fetch. *)
Definition collapses (env : Env) (this : Asset) (p : Prog) (n fuel : nat) : Prop :=
  fetches (log (run env this fuel (fst (calls p n fresh)))) <= 1.

Definition only_event (ev : Event) : Event -> nat :=
  fun e => if decide (e = ev) then 1 else 0.

Definition no_event : Event -> nat := fun _ => 0.

Definition only_slot (s : Slot) : Slot -> nat :=
  fun s' =>
    match s, s' with
    | Content, Content | MapBuffer, MapBuffer | Map, Map | Ast, Ast => 1
    | _, _ => 0
    end.

Definition no_slot : Slot -> nat := fun _ => 0.

(** How often [ev] occurs in a log. *)
Definition occurrences (ev : Event) (l : list Event) : nat :=
  sum_list_with (only_event ev) l.

(** The methods a caller can invoke, and the life of an asset: calls
    interleaved in any way with turns of the event loop. *)
Inductive Method :=
| MgetContent
| MgetCode
| MgetBuffer
| MgetStream
| MgetMapBuffer
| MgetMap
| MgetAST.

#[export] Instance Method_eq_dec : EqDecision Method.
Proof. solve_decision. Defined.

Definition body (env : Env) (this : Asset) (x : Method) : Prog :=
  match x with
  | MgetContent => getContent this
  | MgetCode => getCode this
  | MgetBuffer => getBuffer this
  | MgetStream => getStream this
  | MgetMapBuffer => getMapBuffer this
  | MgetMap => getMap env this
  | MgetAST => getAST this
  end.

Inductive Action :=
| Call (x : Method)
| Turn.

Definition act (env : Env) (this : Asset) (m : Machine) (a : Action) : Machine :=
  match a with
  | Call x => fst (exec (body env this x) m)
  | Turn => default m (tick env this m)
  end.

Definition lifetime (env : Env) (this : Asset) (acts : list Action) : Machine :=
  fold_left (act env this) acts fresh.

(** Slots are only ever filled. *)
Definition slots_grow (m m' : Machine) : Prop :=
  forall s, is_Some (slot s m) -> is_Some (slot s m').

(** A program that ends at once, settling its promise with [o]. *)
Definition ends_with (o : Outcome) (P : Prog) : Prop :=
  forall m, exists c, exec P m = (m, c) /\ forall r m', complete r c m' = settle r o m'.

(** What [getCode] registers on the promise it awaits. *)
Definition getCode_rx (r : pid) : Reaction := MkReaction getCode_rest Throw r.

(** The state after [S n] calls of [getCode] on a fresh asset with a
    content key: one blob read in flight, every call waiting on it. *)
Definition getCode_called (ck : Key) (n : nat) : Machine :=
  MkMachine (Some 1) None None None [] (n + 2)
    (List.map (fun r => (1, getCode_rx r)) (0 :: seq 2 n)) []
    [(1, ExtGetBlob ck)] [EvGetBlob ck].

Definition getCode_outcome (env : Env) (ck : Key) : Outcome :=
  match cache_getBlob env ck with
  | inr b => Fulfilled (VString (toString (VBuffer b)))
  | inl e => Rejected e
  end.


(** What [getMapBuffer] resolves to for map key [mk]. *)
Definition falls_back (env : Env) (this : Asset) (mk : Key) : bool :=
  match cache_getBlob env mk with
  | inl err => is_ENOENT err && bool_decide (astKey this <> None)
  | inr _ => false
  end.

Definition getMapBuffer_outcome (env : Env) (this : Asset) (mk : Key) : Outcome :=
  match cache_getBlob env mk with
  | inr b => Fulfilled (VBuffer b)
  | inl err =>
      if is_ENOENT err && bool_decide (astKey this <> None) then
        match generateFromAST env this with
        | inr (_, Some sm) => Fulfilled (VBuffer (toBuffer sm))
        | inr (_, None) => Fulfilled VUndefined
        | inl e => Rejected e
        end
      else Rejected err
  end.

(** What [getMapBuffer] resolves to, with or without a map key. *)
Definition mapBuffer_outcome (env : Env) (this : Asset) : Outcome :=
  match mapKey this with
  | Some mk => getMapBuffer_outcome env this mk
  | None => Fulfilled VUndefined
  end.

(** What [getMap] makes of the outcome of [getMapBuffer]. *)
Definition getMap_outcome (env : Env) (o : Outcome) : Outcome :=
  match o with
  | Fulfilled (VBuffer b) =>
      match new_SourceMap env b with
      | inr sm => Fulfilled (VSourceMap sm)
      | inl e => Rejected e
      end
  | Fulfilled _ => Fulfilled VUndefined
  | Rejected e => Rejected e
  end.

(** *** A budget for events and slot writes

    [spends n p]: on any path, [p] together with the callbacks and
    continuations it leaves behind emits events and writes slots of total
    cost at most [n]. *)
Section Potential.

Variable E : Event -> nat.   (* the cost of an event *)
Variable W : Slot -> nat.    (* the cost of writing a slot *)

Inductive spends : nat -> Prog -> Prop :=
| spends_Return n v : spends n (Return v)
| spends_Throw n e : spends n (Throw e)
| spends_ReadSlot n s k :
    (forall x, spends n (k x)) -> spends n (ReadSlot s k)
| spends_WriteSlot n n' s p k :
    spends n' k -> W s + n' <= n -> spends n (WriteSlot s p k)
| spends_CacheGetBlob n n' key k :
    (forall x, spends n' (k x)) -> E (EvGetBlob key) + n' <= n ->
    spends n (CacheGetBlob key k)
| spends_CacheGetStream n n' key k :
    (forall x, spends n' (k x)) -> E (EvGetStream key) + n' <= n ->
    spends n (CacheGetStream key k)
| spends_GenerateFromAST n n' k :
    (forall x, spends n' (k x)) -> E EvGenerateFromAST + n' <= n ->
    spends n (GenerateFromAST k)
| spends_BufferStream n r k :
    (forall x, spends n (k x)) -> spends n (BufferStream r k)
| spends_PromiseResolve n v k :
    (forall x, spends n (k x)) -> spends n (PromiseResolve v k)
| spends_Then n a b p cb k :
    (forall v, spends a (cb v)) -> (forall d, spends b (k d)) -> a + b <= n ->
    spends n (Then p cb k)
| spends_Async n a b bd k :
    spends a bd -> (forall r, spends b (k r)) -> a + b <= n ->
    spends n (Async bd k)
| spends_Await n v k h :
    (forall x, spends n (k x)) -> (forall e, spends n (h e)) ->
    spends n (Await v k h)
| spends_LogEvent n n' ev k :
    spends n' k -> E ev + n' <= n -> spends n (LogEvent ev k).

Definition rx_spends (n : nat) (w : pid * Reaction) : Prop :=
  (forall v, spends n (on_fulfil (snd w) v)) /\
  (forall e, spends n (on_reject (snd w) e)).

Definition job_spends (n : nat) (j : Prog * pid) : Prop := spends n (fst j).

Definition completion_spends (n : nat) (c : Completion) : Prop :=
  match c with
  | Suspended v k h => (forall x, spends n (k x)) /\ (forall e, spends n (h e))
  | _ => True
  end.

(** A list whose elements have budgets that add up to [n]. *)
Inductive budget {A} (P : nat -> A -> Prop) : nat -> list A -> Prop :=
| budget_nil : budget P 0 []
| budget_cons n k x l : P n x -> budget P k l -> budget P (n + k) (x :: l).

Definition spent (l : list Event) : nat := sum_list_with E l.

Definition slot_cost (s : Slot) (m : Machine) : nat :=
  match slot s m with Some _ => W s | None => 0 end.

Definition filled (m : Machine) : nat :=
  slot_cost Content m + slot_cost MapBuffer m + slot_cost Map m + slot_cost Ast m.

(** What has been spent so far plus what the pending work may still spend
    stays within [N]. *)
Definition potential (N : nat) (m : Machine) : Prop :=
  exists bw bq,
    budget rx_spends bw (waiting m) /\ budget job_spends bq (microtasks m) /\
    spent (log m) + filled m + bw + bq <= N.

End Potential.

(** [quiet s m]: nothing that is pending in [m] writes slot [s]. *)
Definition quiet (s : Slot) (m : Machine) : Prop :=
  potential no_event (only_slot s) (filled (only_slot s) m) m.

(** The slots that one accessor fills and returns. *)
Definition owned (s : Slot) : Prop := s = MapBuffer \/ s = Map \/ s = Ast.

(** The promise that a call of [x] returns, at any point of the asset's
    life, is what every later call of [x] returns, and a later call does
    nothing else. *)
Definition returns_for_life (env : Env) (this : Asset) (x : Method) : Prop :=
  forall acts more,
    let (m1, c) := exec (body env this x) (lifetime env this acts) in
    let later := lifetime env this (acts ++ Call x :: more) in
    exists p, c = Normal (VPromise p) /\
              exec (body env this x) later = (later, Normal (VPromise p)).

(** The budget for decoding the source map: one, once [this.map] is set. *)
Definition licence (m : Machine) : nat :=
  match map m with Some _ => 1 | None => 0 end.

(** *** Sample assets *)

Definition ENOENT : JsError := MkError "no such file or directory" (Some "ENOENT").

(** A cache that holds ["abc"] under key ["content"], the empty blob under
    ["empty"] and the byte ["m"] under ["map"], a generator that yields
    the code ["x=1"] without a map, and a source-map library that takes
    the one buffer ["s"] for a serialized map and throws on every other. *)
Definition sample_blob (key : Key) : JsError + list byte :=
  if String.eqb key "content" then inr ["a"%byte; "b"%byte; "c"%byte]
  else if String.eqb key "empty" then inr []
  else if String.eqb key "map" then inr ["m"%byte]
  else inl ENOENT.

Definition InvalidSourceMap : JsError := MkError "invalid source map buffer" None.

Definition sample_SourceMap (buffer : list byte) : JsError + SourceMap :=
  match buffer with
  | [b] => if Byte.eqb b "s" then inr (MkSourceMap buffer) else inl InvalidSourceMap
  | _ => inl InvalidSourceMap
  end.

Definition sample_env : Env :=
  MkEnv sample_blob sample_blob (fun _ => inr (BString "x=1", None)) sample_SourceMap.


Definition ast_only : Asset := MkAsset None None (Some "ast").
Definition content_only : Asset := MkAsset (Some "content") None None.
Definition with_map : Asset := MkAsset (Some "content") (Some "map") None.
Definition no_keys : Asset := MkAsset None None None.

(** ** Lifetimes: what is read, generated and written, and for how long *)

(** One, once slot [s] holds a promise. *)
Definition held (s : Slot) (m : Machine) : nat :=
  match slot s m with Some _ => 1 | None => 0 end.

(** The slots a method may assign, read off its body: [getCode] and
    [getBuffer] assign [this.content]; [getContent] and [getStream] only
    through the callback on generated content; [getMapBuffer], and
    [getMap] through it, assign [this.mapBuffer] when there is a map key;
    [getMap] assigns [this.map]; [getAST] assigns [this.ast] when there is
    an AST key. *)
Definition may_write (this : Asset) (x : Method) (s : Slot) : bool :=
  match s, x with
  | Content, (MgetCode | MgetBuffer) => true
  | Content, (MgetContent | MgetStream) =>
      bool_decide (contentKey this = None) && bool_decide (astKey this <> None)
  | MapBuffer, (MgetMapBuffer | MgetMap) => bool_decide (mapKey this <> None)
  | Map, MgetMap => true
  | Ast, MgetAST => bool_decide (astKey this <> None)
  | _, _ => false
  end.

(** No call in [acts] is of a method that may assign [s]. *)
Definition never_calls_writer (this : Asset) (s : Slot) (acts : list Action) : bool :=
  forallb (fun a => match a with
                    | Call x => negb (may_write this x s)
                    | Turn => true
                    end) acts.

#[export] Instance Action_eq_dec : EqDecision Action.
Proof. solve_decision. Defined.

(** How often [x] is called in [acts], and how many calls [acts] makes. *)
Definition calls_of (x : Method) (acts : list Action) : nat :=
  length (filter (fun a => a = Call x) acts).

Fixpoint calls_made (acts : list Action) : nat :=
  match acts with
  | [] => 0
  | Call _ :: rest => S (calls_made rest)
  | Turn :: rest => calls_made rest
  end.

(** An asset that has done nothing but log. *)
Definition idle (l : list Event) : Machine :=
  MkMachine None None None None [] 0 [] [] [] l.







(** *** A bound on the turns a program causes *)

(** [v instanceof Promise] *)
Definition is_promise (v : Val) : bool :=
  match v with VPromise _ => true | _ => false end.

(** [lasts n p]: [p], with the reactions and the external operations it
    leaves behind, keeps the event loop busy for at most [n] turns.  What
    the loop hands to a continuation is never a promise. *)
Inductive lasts : nat -> Prog -> Prop :=
| lasts_Return n v : (is_promise v = true -> 1 <= n) -> lasts n (Return v)
| lasts_Throw n e : lasts n (Throw e)
| lasts_ReadSlot n s k : (forall x, lasts n (k x)) -> lasts n (ReadSlot s k)
| lasts_WriteSlot n s p k : lasts n k -> lasts n (WriteSlot s p k)
| lasts_CacheGetBlob n n' key k :
    (forall x, lasts n' (k x)) -> S n' <= n -> lasts n (CacheGetBlob key k)
| lasts_CacheGetStream n key k :
    (forall x, lasts n (k x)) -> lasts n (CacheGetStream key k)
| lasts_GenerateFromAST n n' k :
    (forall x, lasts n' (k x)) -> S n' <= n -> lasts n (GenerateFromAST k)
| lasts_BufferStream n n' r k :
    (forall x, lasts n' (k x)) -> S n' <= n -> lasts n (BufferStream r k)
| lasts_PromiseResolve n n' v k :
    (forall x, lasts n' (k x)) -> S n' <= n -> lasts n (PromiseResolve v k)
| lasts_Then n a b p cb k :
    (forall v, is_promise v = false -> lasts a (cb v)) ->
    (forall d, lasts b (k d)) -> S a + b <= n -> lasts n (Then p cb k)
| lasts_Async n a b bd k :
    lasts a bd -> (forall r, lasts b (k r)) -> a + b <= n -> lasts n (Async bd k)
| lasts_Await n n' v k h :
    (forall x, is_promise x = false -> lasts n' (k x)) ->
    (forall e, lasts n' (h e)) -> S n' <= n -> lasts n (Await v k h)
| lasts_LogEvent n ev k : lasts n k -> lasts n (LogEvent ev k).

Definition rx_lasts (n : nat) (w : pid * Reaction) : Prop :=
  exists n', n = S n' /\
    (forall v, is_promise v = false -> lasts n' (on_fulfil (snd w) v)) /\
    (forall e, lasts n' (on_reject (snd w) e)).

Definition job_lasts (n : nat) (j : Prog * pid) : Prop :=
  exists n', n = S n' /\ lasts n' (fst j).

Definition completion_lasts (n : nat) (c : Completion) : Prop :=
  match c with
  | Normal v => is_promise v = true -> 1 <= n
  | Abrupt _ => True
  | Suspended v k h =>
      exists n', n = S n' /\
        (forall x, is_promise x = false -> lasts n' (k x)) /\
        (forall e, lasts n' (h e))
  end.

(** No promise is fulfilled with a promise. *)
Definition flat (o : Outcome) : Prop :=
  match o with Fulfilled v => is_promise v = false | Rejected _ => True end.

(** [busy N m]: the pending work of [m] takes at most [N] turns. *)
Definition busy (N : nat) (m : Machine) : Prop :=
  Forall (fun po => flat (snd po)) (heap m) /\
  exists bw bq,
    budget rx_lasts bw (waiting m) /\ budget job_lasts bq (microtasks m) /\
    bw + bq + length (inflight m) <= N.

(** *** A stocked cache *)

(** As [sample_blob], with a serialized AST under ["ast"]; the generator
    yields the code ["x=1"] and the source map that serializes to ["s"]. *)
Definition stocked_blob (key : Key) : JsError + list byte :=
  if String.eqb key "ast" then inr ["t"%byte] else sample_blob key.

Definition stocked_env : Env :=
  MkEnv stocked_blob stocked_blob
    (fun _ => inr (BString "x=1", Some (MkSourceMap ["s"%byte]))) sample_SourceMap.

(** An asset with all three keys, whose map is not in the cache. *)
Definition all_keys : Asset := MkAsset (Some "content") (Some "nomap") (Some "ast").

End Store.

(** * The symbol resolver *)

Module Resolver.

Definition AssetId := string.

(** [export type Symbol = string] *)
Definition Symbol := string.

Record SourceLocation := MkLoc {
  filePath : string;
  start_line : nat;
  start_column : nat;
  end_line : nat;
  end_column : nat
}.

(** [symbol: void | null | Symbol] of [SymbolResolution]. *)
Inductive SymbolRef :=
| SymUndefined              (* symbol not found *)
| SymNull                   (* bailout *)
| Sym (local : Symbol).

Record SymbolResolution := MkResolution {
  asset : AssetId;
  exportSymbol : Symbol;
  symbol : SymbolRef;
  loc : option SourceLocation
}.

(** Modelled from the spec: the symbol tables behind [getSymbolResolution],
    of which index.js only declares the interface.  An export either has
    "a local binding that is itself a re-export of another asset's export"
    or "a genuine local definition". *)
Inductive Binding :=
| ReExport (from : AssetId) (exported : Symbol) (at_loc : option SourceLocation)
| Local (local : Symbol) (at_loc : option SourceLocation).

(** The symbol tables of all assets, keyed by asset and export name, and
    the assets whose symbols are cleared ([isCleared]). *)
Record Graph := MkGraph {
  exports : gmap (AssetId * Symbol) Binding;
  cleared : gset AssetId
}.

(** A bundle as a boundary: [hasAsset]. *)
Record Bundle := MkBundle {
  members : gset AssetId
}.

Definition hasAsset (b : Bundle) (a : AssetId) : bool := bool_decide (a ∈ members b).

(** Following a re-export into [next] would leave [boundary]. *)
Definition leaves (boundary : option Bundle) (next : AssetId) : bool :=
  match boundary with
  | Some b => negb (hasAsset b next)
  | None => false
  end.

Definition stop (a : AssetId) (s : Symbol) (l : option SourceLocation) : SymbolResolution :=
  MkResolution a s SymUndefined l.

(** Modelled from the spec: [getSymbolResolution] has no implementation
    under src/.  Section 4.4: a working pointer [(asset, exportSymbol)];
    steps 1 to 4 on the lookup of [exportSymbol] in the current asset's
    table; the boundary rule before a re-export is followed; the cycle guard
    on the per-call set of visited pairs.  [None]: out of fuel. *)
Fixpoint resolution (g : Graph) (boundary : option Bundle) (fuel : nat)
    (visited : gset (AssetId * Symbol)) (a : AssetId) (s : Symbol)
    (last : option SourceLocation) : option SymbolResolution :=
  match fuel with
  | 0 => None
  | S fuel' =>
      if decide ((a, s) ∈ visited) then Some (stop a s last)
      else
        match exports g !! (a, s) with
        | None => Some (stop a s last)
        | Some (ReExport next s' l) =>
            if leaves boundary next then Some (stop a s last)
            else resolution g boundary fuel' ({[(a, s)]} ∪ visited) next s' l
        | Some (Local local l) =>
            if decide (a ∈ cleared g) then Some (MkResolution a s SymNull l)
            else Some (MkResolution a s (Sym local) l)
        end
  end.

(** One more step than there are exports: each step but the last visits a
    pair that was not visited before. *)
Definition getSymbolResolution (g : Graph) (a : AssetId) (s : Symbol)
    (boundary : option Bundle) : option SymbolResolution :=
  resolution g boundary (S (size (dom (exports g)))) ∅ a s None.

(** A step of the working pointer: a re-export that stays in [boundary]. *)
Definition follows (g : Graph) (boundary : option Bundle)
    (x y : AssetId * Symbol) : Prop :=
  exists l, exports g !! x = Some (ReExport (fst y) (snd y) l) /\
            leaves boundary (fst y) = false.

(** *** Sample graphs *)

(** [a] re-exports [x] from [b], where it is [y]; [b] re-exports [y] from
    [c], where it is [z]; [c] defines [z].  The bundle holds [a] and [b]. *)
Definition chain_graph : Graph :=
  MkGraph
    (<[("a", "x") := ReExport "b" "y" None]>
       (<[("b", "y") := ReExport "c" "z" None]>
          (<[("c", "z") := Local "z$1" None]> ∅)))
    ∅.

Definition chain_bundle : Bundle := MkBundle {["a"; "b"]}.

(** [a] and [b] re-export [x] from each other. *)
Definition cycle_graph : Graph :=
  MkGraph
    (<[("a", "x") := ReExport "b" "x" None]>
       (<[("b", "x") := ReExport "a" "x" None]> ∅))
    ∅.

End Resolver.

(** * Creating bundles *)

Module Bundler.

Inductive EnvironmentContext :=
| browser
| web_worker
| service_worker
| node
| electron_main
| electron_renderer.

Inductive OutputFormat := esmodule | commonjs | global.

(** [Environment], without its engine and package tables. *)
Record Environment := MkEnvironment {
  context : EnvironmentContext;
  outputFormat : OutputFormat;
  isLibrary : bool;
  minify : bool;
  scopeHoist : bool
}.

Record Target := MkTarget {
  distDir : string;
  target_env : Environment;
  name : string;
  publicUrl : string
}.

(** The fields of an [Asset] that a bundle is inferred from. *)
Record Asset := MkAsset {
  id : string;
  type : string;
  env : Environment;
  asset_isSplittable : option bool
}.

(** The options both variants of [CreateBundleOptions] share. *)
Record CommonOptions := MkCommon {
  target : Target;
  isEntry : option bool;
  isInline : option bool;
  isSplittable : option bool;
  pipeline : option string
}.

(** [CreateBundleOptions]: the two variants of the union, with what each
    makes optional. *)
Inductive CreateBundleOptions :=
| WithEntryAsset (uniqueKey : option string) (entryAsset : Asset)
    (type : option string) (env : option Environment) (common : CommonOptions)
| WithUniqueKey (uniqueKey : string) (entryAsset : option Asset)
    (type : string) (env : Environment) (common : CommonOptions).

Definition entryAsset_of (opts : CreateBundleOptions) : option Asset :=
  match opts with
  | WithEntryAsset _ a _ _ _ => Some a
  | WithUniqueKey _ a _ _ _ => a
  end.

Definition common_of (opts : CreateBundleOptions) : CommonOptions :=
  match opts with
  | WithEntryAsset _ _ _ _ c => c
  | WithUniqueKey _ _ _ _ c => c
  end.

(** What the options supply explicitly. *)
Definition uniqueKey_of (opts : CreateBundleOptions) : option string :=
  match opts with
  | WithEntryAsset k _ _ _ _ => k
  | WithUniqueKey k _ _ _ _ => Some k
  end.

Definition type_of (opts : CreateBundleOptions) : option string :=
  match opts with
  | WithEntryAsset _ _ t _ _ => t
  | WithUniqueKey _ _ t _ _ => Some t
  end.

Definition env_of (opts : CreateBundleOptions) : option Environment :=
  match opts with
  | WithEntryAsset _ _ _ e _ => e
  | WithUniqueKey _ _ _ e _ => Some e
  end.

Record Bundle := MkBundle {
  bundle_id : string;
  bundle_type : string;
  bundle_env : Environment;
  bundle_target : Target;
  bundle_isEntry : option bool;
  bundle_isInline : option bool;
  bundle_isSplittable : bool;
  assets : gset string
}.

Definition hasAsset (b : Bundle) (a : Asset) : bool := bool_decide (id a ∈ assets b).

(** The identity of a bundle, from the key it is created under. *)
Definition id_from (key : string) : string := "bundle:" ++ key.

(** Modelled from the spec: [createBundle] is only declared in index.js.
    Section 4.3: "if an entry asset is supplied, bundle
    type/environment/identity are inferred from it; otherwise all of
    type/environment/a unique key must be supplied explicitly. Returns a new
    Bundle with empty membership."  [isSplittable] defaults to
    [entryAsset.isSplittable] or [false]. *)
Definition createBundle (opts : CreateBundleOptions) : Bundle :=
  let c := common_of opts in
  match opts with
  | WithEntryAsset _ a _ _ _
  | WithUniqueKey _ (Some a) _ _ _ =>
      MkBundle (id_from (id a)) (type a) (env a) (target c) (isEntry c) (isInline c)
        (default (default false (asset_isSplittable a)) (isSplittable c)) ∅
  | WithUniqueKey k None t e _ =>
      MkBundle (id_from k) t e (target c) (isEntry c) (isInline c)
        (default false (isSplittable c)) ∅
  end.

(** *** Sample options *)

Definition sample_environment : Environment :=
  MkEnvironment browser esmodule false false true.

Definition sample_target : Target :=
  MkTarget "dist" sample_environment "default" "/".

Definition sample_asset : Asset :=
  MkAsset "a1" "js" sample_environment (Some true).

Definition sample_common : CommonOptions :=
  MkCommon sample_target None None None None.

Definition from_asset : CreateBundleOptions :=
  WithEntryAsset None sample_asset None None sample_common.

Definition from_key : CreateBundleOptions :=
  WithUniqueKey "shared" None "css" sample_environment sample_common.

End Bundler.

(** * Facts about the content store *)

Module StoreFacts.

Import Store.


(** ** Budgets are kept by the event loop *)

Section PotentialFacts.

Variable E : Event -> nat.
Variable W : Slot -> nat.

Lemma spends_le n p : spends E W n p -> forall n', n <= n' -> spends E W n' p.
Proof.
  induction 1; intros; econstructor; eauto; lia.
Qed.

Lemma spends_bind n a b m f :
  spends E W a m -> (forall v, spends E W b (f v)) -> a + b <= n ->
  spends E W n (bind m f).
Proof.
  intros Hm Hf. revert n.
  induction Hm as [n v|n e|n s k _ IH|n n' s p k _ IH Hle|n n' key k _ IH Hle
                  |n n' key k _ IH Hle|n n' k _ IH Hle|n r k _ IH|n v k _ IH
                  |n a' b' p cb k Hcb _ _ IH Hle|n a' b' bd k Hbd _ _ IH Hle
                  |n v k h _ IHk _ IHh|n n' ev k _ IH Hle];
    intros n0 Hle0; simpl.
  - eapply spends_le; eauto. lia.
  - constructor.
  - constructor; intros; apply IH; lia.
  - eapply spends_WriteSlot; [apply (IH (n' + b)); lia|lia].
  - eapply spends_CacheGetBlob; [intros; apply (IH x (n' + b)); lia|lia].
  - eapply spends_CacheGetStream; [intros; apply (IH x (n' + b)); lia|lia].
  - eapply spends_GenerateFromAST; [intros; apply (IH x (n' + b)); lia|lia].
  - constructor; intros; apply IH; lia.
  - constructor; intros; apply IH; lia.
  - eapply (spends_Then _ _ _ a' (b' + b)); eauto. lia.
  - eapply (spends_Async _ _ _ a' (b' + b)); eauto. lia.
  - constructor; intros; [apply IHk|apply IHh]; lia.
  - eapply spends_LogEvent; [apply (IH (n' + b)); lia|lia].
Qed.

Lemma budget_app {A} (P : nat -> A -> Prop) a b l1 l2 :
  budget P a l1 -> budget P b l2 -> budget P (a + b) (l1 ++ l2).
Proof.
  induction 1; intros; simpl; auto.
  rewrite <- Nat.add_assoc. constructor; auto.
Qed.

Lemma budget_split {A} (P : nat -> A -> Prop) (Q : A -> Prop)
    `{forall x, Decision (Q x)} n l :
  budget P n l ->
  exists a b, budget P a (filter Q l) /\
              budget P b (filter (fun x => ~ Q x) l) /\ a + b = n.
Proof.
  induction 1 as [|n k x l Hx Hl (a & b & Ha & Hb & <-)].
  - exists 0, 0. repeat split; constructor.
  - rewrite !filter_cons. destruct (decide (Q x)) as [q|q].
    + rewrite decide_False by tauto. exists (n + a), b.
      repeat split; auto; [constructor; auto | lia].
    + rewrite decide_True by tauto. exists a, (n + b).
      repeat split; auto; [constructor; auto | lia].
Qed.

Lemma budget_jobs o n l :
  budget (rx_spends E W) n l ->
  budget (job_spends E W) n (List.map (fun w => job_of o (snd w)) l).
Proof.
  induction 1 as [|n k x l [Hf Hr] Hl IH]; simpl; constructor; auto.
  destruct o; simpl; red; simpl; auto.
Qed.

Lemma potential_le N N' m : potential E W N m -> N <= N' -> potential E W N' m.
Proof.
  intros (bw & bq & ? & ? & ?) ?. exists bw, bq. repeat split; auto. lia.
Qed.

Lemma potential_alloc N m : potential E W N m -> potential E W N (snd (alloc m)).
Proof. intros (bw & bq & ? & ? & ?). exists bw, bq. repeat split; auto. Qed.

Lemma spent_app l ev : spent E (l ++ [ev]) = spent E l + E ev.
Proof. unfold spent. rewrite sum_list_with_app. simpl. lia. Qed.

Lemma potential_emit N m ev :
  potential E W N m -> potential E W (N + E ev) (emit ev m).
Proof.
  intros (bw & bq & ? & ? & ?). exists bw, bq. repeat split; auto.
  simpl. rewrite spent_app. unfold filled, slot_cost in *. simpl in *. lia.
Qed.

Lemma potential_start N m op :
  potential E W N m -> potential E W N (snd (start op m)).
Proof. intros (bw & bq & ? & ? & ?). exists bw, bq. repeat split; auto. Qed.

Lemma potential_set_slot N m s p :
  potential E W N m -> potential E W (N + W s) (set_slot s p m).
Proof.
  intros (bw & bq & ? & ? & ?). exists bw, bq.
  destruct s; simpl; repeat split; auto; unfold filled, slot_cost in *; simpl in *;
    repeat match goal with
           | |- context [match ?x with _ => _ end] => destruct x
           end; lia.
Qed.

Lemma potential_enqueue N n m j :
  potential E W N m -> job_spends E W n j -> potential E W (N + n) (enqueue j m).
Proof.
  intros (bw & bq & ? & ? & ?) ?. exists bw, (bq + (n + 0)). repeat split; auto.
  - simpl. apply budget_app; auto. repeat constructor; auto.
  - unfold filled, slot_cost in *. simpl in *. lia.
Qed.

Lemma potential_subscribe N n m p rx :
  potential E W N m -> rx_spends E W n (p, rx) ->
  potential E W (N + n) (subscribe p rx m).
Proof.
  intros HN Hrx. unfold subscribe. destruct (outcome (heap m) p) as [o|].
  - apply potential_enqueue; auto. destruct Hrx, o; red; simpl; auto.
  - destruct HN as (bw & bq & ? & ? & ?). exists (bw + (n + 0)), bq.
    repeat split; auto.
    + simpl. apply budget_app; auto. repeat constructor; auto; apply Hrx.
    + unfold filled, slot_cost in *. simpl in *. lia.
Qed.

Lemma potential_settle N m p o : potential E W N m -> potential E W N (settle p o m).
Proof.
  intros (bw & bq & Hw & Hq & Hle).
  destruct (budget_split (rx_spends E W) (fun w => fst w = p) _ _ Hw)
    as (a & b & Ha & Hb & <-).
  exists b, (bq + a). repeat split; simpl; auto.
  - apply budget_app; auto. apply budget_jobs; auto.
  - unfold filled, slot_cost in *. simpl in *. lia.
Qed.

Lemma potential_resolve N m r v :
  potential E W N m -> potential E W N (resolve r v m).
Proof.
  intros HN. destruct v; simpl; try (apply potential_settle; auto).
  replace N with (N + 0) by lia. apply potential_subscribe; auto.
  split; simpl; intros; constructor.
Qed.

Lemma potential_complete N n m r c :
  potential E W N m -> completion_spends E W n c ->
  potential E W (N + n) (complete r c m).
Proof.
  intros HN Hc. destruct c as [v|e|v k h]; simpl.
  - eapply potential_le; [apply potential_resolve; eauto | lia].
  - eapply potential_le; [apply potential_settle; eauto | lia].
  - destruct Hc as [Hk Hh].
    destruct v; try (apply potential_enqueue; auto; red; simpl; auto).
    apply potential_subscribe; auto. split; simpl; auto.
Qed.

(** Running a program that spends [n] raises the potential by at most [n];
    what its continuation may spend is part of that. *)
Lemma exec_spends n p :
  spends E W n p -> forall N m, potential E W N m ->
  exists N' nc,
    potential E W N' (fst (exec p m)) /\
    completion_spends E W nc (snd (exec p m)) /\ N' + nc <= N + n.
Proof.
  induction 1 as [n v|n e|n s k _ IH|n n' s p k _ IH Hle|n n' key k _ IH Hle
                  |n n' key k _ IH Hle|n n' k _ IH Hle|n r k _ IH|n v k _ IH
                  |n a b p cb k Hcb _ _ IH Hle|n a b bd k _ IHb _ IHk Hle
                  |n v k h Hk _ Hh _|n n' ev k _ IH Hle];
    intros N m HN; simpl.
  - exists N, 0. repeat split; auto. lia.
  - exists N, 0. repeat split; auto. lia.
  - apply IH; auto.
  - destruct (IH (N + W s) (set_slot s p m)) as (N' & nc & ? & ? & ?).
    { apply potential_set_slot; auto. }
    exists N', nc. repeat split; auto. lia.
  - destruct (IH (next m) (N + E (EvGetBlob key))
                (snd (start (ExtGetBlob key) (emit (EvGetBlob key) m))))
      as (N' & nc & ? & ? & ?).
    { apply potential_start, potential_emit; auto. }
    exists N', nc. repeat split; auto. lia.
  - destruct (IH (CacheReadable key) (N + E (EvGetStream key)) (emit (EvGetStream key) m))
      as (N' & nc & ? & ? & ?).
    { apply potential_emit; auto. }
    exists N', nc. repeat split; auto. lia.
  - destruct (IH (next m) (N + E EvGenerateFromAST)
                (snd (start ExtGenerate (emit EvGenerateFromAST m))))
      as (N' & nc & ? & ? & ?).
    { apply potential_start, potential_emit; auto. }
    exists N', nc. repeat split; auto. lia.
  - apply IH. apply (potential_start N m (ExtBufferStream r)); auto.
  - apply IH. apply potential_resolve, potential_alloc; auto.
  - destruct (IH (next m) (N + a)
                (subscribe p (MkReaction cb Throw (next m)) (snd (alloc m))))
      as (N' & nc & ? & ? & ?).
    { apply potential_subscribe; [apply potential_alloc; auto|].
      split; simpl; auto. intros; constructor. }
    exists N', nc. repeat split; auto. lia.
  - pose proof (IHb N (snd (alloc m)) (potential_alloc _ _ HN))
      as (N1 & nc1 & H1 & Hc1 & Hle1).
    simpl in *. destruct (exec bd _) as [m2 c]. simpl in *.
    destruct (IHk (next m) (N1 + nc1) (complete (next m) c m2))
      as (N' & nc & ? & ? & ?).
    { apply potential_complete; auto. }
    exists N', nc. repeat split; auto. lia.
  - exists N, n. repeat split; auto.
  - destruct (IH (N + E ev) (emit ev m)) as (N' & nc & ? & ? & ?).
    { apply potential_emit; auto. }
    exists N', nc. repeat split; auto. lia.
Qed.

Lemma tick_potential env this N m m' :
  potential E W N m -> tick env this m = Some m' -> potential E W N m'.
Proof.
  intros (bw & bq & Hw & Hq & Hle). unfold tick.
  destruct (microtasks m) as [|job rest] eqn:Eq.
  - destruct (pick env this (inflight m) m) as [[[p o] rest]|]; [|done].
    intros [= <-]. apply potential_settle. exists bw, bq. simpl. rewrite Eq. auto.
  - intros [= <-]. inversion Hq as [|n k x l Hjob Hrest]; subst.
    destruct (exec_spends n (fst job) Hjob (spent E (log m) + filled W m + bw + k)
                (with_microtasks rest m)) as (N' & nc & HN' & Hc & Hle').
    { exists bw, k. repeat split; auto. }
    unfold run_job. destruct (exec (fst job) _) as [m1 c]. simpl in *.
    eapply potential_le; [apply potential_complete; eauto|lia].
Qed.

Lemma potential_fresh : potential E W 0 fresh.
Proof. exists 0, 0. repeat split; try constructor. Qed.

End PotentialFacts.

(** ** Slots are only ever filled *)

Lemma slots_grow_refl m : slots_grow m m.
Proof. intros s; auto. Qed.

Lemma slots_grow_trans m1 m2 m3 :
  slots_grow m1 m2 -> slots_grow m2 m3 -> slots_grow m1 m3.
Proof. intros H1 H2 s Hs; auto. Qed.

Lemma slots_same_grow m m' : (forall s, slot s m' = slot s m) -> slots_grow m m'.
Proof. intros H s. rewrite H. auto. Qed.

Lemma slot_subscribe s p rx m : slot s (subscribe p rx m) = slot s m.
Proof. unfold subscribe. destruct (outcome (heap m) p), s; reflexivity. Qed.

Lemma slot_settle s p o m : slot s (settle p o m) = slot s m.
Proof. destruct s; reflexivity. Qed.

Lemma slot_resolve s r v m : slot s (resolve r v m) = slot s m.
Proof. destruct v; simpl; auto using slot_settle, slot_subscribe. Qed.

Lemma slot_complete s r c m : slot s (complete r c m) = slot s m.
Proof.
  destruct c as [v|e|v k h]; simpl; auto using slot_settle, slot_resolve.
  destruct v; auto using slot_subscribe; destruct s; reflexivity.
Qed.

Lemma slots_grow_set s p m : slots_grow m (set_slot s p m).
Proof. intros s'. destruct s, s'; simpl; eauto. Qed.

Lemma exec_slots_grow p : forall m, slots_grow m (fst (exec p m)).
Proof.
  induction p as [v|e|s k IH|s q k IH|key k IH|key k IH|k IH|r k IH|v k IH
                  |q cb _ k IH|bd IHb k IH|v k _ h _|ev k IH];
    intros m; simpl; try apply slots_grow_refl.
  - apply IH.
  - eapply slots_grow_trans; [apply slots_grow_set|apply IH].
  - eapply slots_grow_trans; [|apply IH]. apply slots_same_grow. intros []; reflexivity.
  - eapply slots_grow_trans; [|apply IH]. apply slots_same_grow. intros []; reflexivity.
  - eapply slots_grow_trans; [|apply IH]. apply slots_same_grow. intros []; reflexivity.
  - eapply slots_grow_trans; [|apply IH]. apply slots_same_grow. intros []; reflexivity.
  - eapply slots_grow_trans; [|apply IH]. apply slots_same_grow.
    intros s. rewrite slot_resolve. destruct s; reflexivity.
  - eapply slots_grow_trans; [|apply IH]. apply slots_same_grow.
    intros s. rewrite slot_subscribe. destruct s; reflexivity.
  - pose proof (IHb (snd (alloc m))) as Hb. simpl in Hb.
    destruct (exec bd _) as [m2 c]. simpl in *.
    eapply slots_grow_trans; [|apply IH].
    eapply slots_grow_trans; [|eapply slots_grow_trans; [apply Hb|]].
    + apply slots_same_grow. intros []; reflexivity.
    + apply slots_same_grow. intros s. apply slot_complete.
  - eapply slots_grow_trans; [|apply IH]. apply slots_same_grow. intros []; reflexivity.
Qed.

Lemma tick_slots_grow env this m m' : tick env this m = Some m' -> slots_grow m m'.
Proof.
  unfold tick. destruct (microtasks m) as [|job rest].
  - destruct (pick env this (inflight m) m) as [[[p o] rest]|]; [|done].
    intros [= <-]. apply slots_same_grow. intros s. rewrite slot_settle.
    destruct s; reflexivity.
  - intros [= <-]. unfold run_job.
    pose proof (exec_slots_grow (fst job) (with_microtasks rest m)) as H.
    destruct (exec (fst job) _) as [m1 c]. simpl in *.
    eapply slots_grow_trans; [|eapply slots_grow_trans; [apply H|]].
    + apply slots_same_grow. intros []; reflexivity.
    + apply slots_same_grow. intros s. apply slot_complete.
Qed.

Lemma act_slots_grow env this m a : slots_grow m (act env this m a).
Proof.
  destruct a as [x|]; simpl.
  - apply exec_slots_grow.
  - destruct (tick env this m) eqn:Et; simpl;
      [eapply tick_slots_grow; eauto|apply slots_grow_refl].
Qed.

(** ** What the methods spend *)

Ltac spends0 E W :=
  repeat first
    [ apply spends_Return | apply spends_Throw
    | apply spends_ReadSlot; intro
    | apply spends_BufferStream; intro
    | apply spends_PromiseResolve; intro
    | apply spends_Await; intro
    | apply (spends_WriteSlot E W 0 0); [|reflexivity]
    | apply (spends_CacheGetBlob E W 0 0); [intro|reflexivity]
    | apply (spends_CacheGetStream E W 0 0); [intro|reflexivity]
    | apply (spends_GenerateFromAST E W 0 0); [intro|reflexivity]
    | apply (spends_LogEvent E W 0 0); [|reflexivity]
    | apply (spends_Then E W 0 0 0); [intro|intro|reflexivity]
    | apply (spends_Async E W 0 0 0); [|intro|reflexivity]
    | apply (spends_bind E W 0 0 0); [|intro|reflexivity]
    | match goal with
      | |- spends _ _ _ (match ?x with _ => _ end) => destruct x
      | |- spends _ _ _ (match ?x with _ => _ end _) => destruct x
      | |- spends _ _ _ (if ?x then _ else _) => destruct x
      end
    | progress cbn ].

Ltac open_methods :=
  unfold body, getContent, getCode, getBuffer, getStream, getMapBuffer, getMap,
    getAST, async, await, getCode_rest, getBuffer_rest, getMap_rest, call; cbn.

(** Without a map key no method writes [this.mapBuffer]. *)
Lemma methods_keep_mapBuffer env this x :
  mapKey this = None -> spends no_event (only_slot MapBuffer) 0 (body env this x).
Proof.
  intros Hk. destruct this as [ck mk ak]; simpl in *; subst.
  destruct x; open_methods.
  all: spends0 no_event (only_slot MapBuffer).
Qed.

(** Only [getMap] decodes a source map. *)
Lemma others_never_decode env this x :
  x <> MgetMap -> spends (only_event EvNewSourceMap) no_slot 0 (body env this x).
Proof.
  intros Hx. destruct this as [ck mk ak]; simpl in *; subst.
  destruct x; try done; open_methods.
  all: spends0 (only_event EvNewSourceMap) no_slot.
Qed.

Lemma mapBuffer_never_filled env this acts :
  mapKey this = None -> mapBuffer (lifetime env this acts) = None.
Proof.
  intros Hk.
  assert (forall acts m, potential no_event (only_slot MapBuffer) 0 m ->
            potential no_event (only_slot MapBuffer) 0 (fold_left (act env this) acts m))
    as Hinv.
  { clear acts. induction acts as [|a acts IH]; intros m Hm; simpl; auto.
    apply IH. destruct a as [x|]; simpl.
    - destruct (exec_spends _ _ 0 _ (methods_keep_mapBuffer env this x Hk) 0 m Hm)
        as (N' & nc & H & _ & Hle).
      eapply potential_le; eauto. lia.
    - destruct (tick env this m) eqn:Et; simpl; auto. eapply tick_potential; eauto. }
  destruct (Hinv acts fresh (potential_fresh _ _)) as (bw & bq & _ & _ & Hle).
  unfold lifetime. unfold filled, slot_cost in Hle. simpl in Hle.
  destruct (mapBuffer _); auto. lia.
Qed.

(** ** Memoized accessors *)

Lemma getMap_memoized env this m p :
  map m = Some p -> exec (getMap env this) m = (m, Normal (VPromise p)).
Proof.
  intros Hm. unfold getMap. simpl. rewrite Hm. simpl. rewrite Hm. reflexivity.
Qed.

Lemma getMapBuffer_memoized this m p :
  mapBuffer m = Some p -> exec (getMapBuffer this) m = (m, Normal (VPromise p)).
Proof.
  intros Hm. unfold getMapBuffer. simpl. rewrite Hm.
  destruct (mapKey this); simpl; rewrite Hm; reflexivity.
Qed.

Lemma getAST_memoized this m k p :
  astKey this = Some k -> ast m = Some p ->
  exec (getAST this) m = (m, Normal (VPromise p)).
Proof.
  intros Hk Hm. unfold getAST. rewrite Hk. simpl. rewrite Hm. simpl. rewrite Hm.
  reflexivity.
Qed.

Lemma licence_grows m m' : slots_grow m m' -> licence m <= licence m'.
Proof.
  intros H. unfold licence. specialize (H Map). simpl in H.
  destruct (map m); [|lia]. destruct H as [? ->]; eauto.
Qed.

(** The first [getMap] call buys the one decoding and fills the slot. *)
Lemma getMap_first env this m :
  map m = None ->
  potential (only_event EvNewSourceMap) no_slot 0 m ->
  potential (only_event EvNewSourceMap) no_slot 1 (fst (exec (getMap env this) m)) /\
  is_Some (map (fst (exec (getMap env this) m))).
Proof.
  intros Hm HN. unfold getMap. cbn [exec]. cbn [slot]. rewrite Hm.
  lazymatch goal with
  | |- potential _ _ _ (fst (exec ?p0 _)) /\ _ => set (prog := p0)
  end.
  split.
  - assert (spends (only_event EvNewSourceMap) no_slot 1 prog) as Hp.
    { apply (spends_Async _ _ 1 1 0);
        [|intro; spends0 (only_event EvNewSourceMap) no_slot|reflexivity].
      apply (spends_bind _ _ 1 0 1); [|intro|reflexivity].
      - apply (others_never_decode env this MgetMapBuffer). done.
      - apply spends_Await; intro; [|apply spends_Throw].
        unfold getMap_rest. destruct (truthy _); [|apply spends_Return].
        apply (spends_LogEvent _ _ 1 0); [|reflexivity].
        destruct (new_SourceMap env _); [apply spends_Throw|apply spends_Return]. }
    destruct (exec_spends _ _ 1 prog Hp 0 m HN) as (N' & nc & H & _ & Hle).
    eapply potential_le; eauto. lia.
  - subst prog. cbn [exec alloc].
    match goal with
    | |- context [exec ?b ?mm] => destruct (exec b mm) as [m2 c]
    end.
    cbn [exec slot set_slot fst map]. eauto.
Qed.

(** In the whole life of an asset a source map is decoded at most once. *)
Lemma source_map_decoded_once env this acts :
  occurrences EvNewSourceMap (log (lifetime env this acts)) <= 1.
Proof.
  assert (forall acts m, potential (only_event EvNewSourceMap) no_slot (licence m) m ->
     let m' := fold_left (act env this) acts m in
     potential (only_event EvNewSourceMap) no_slot (licence m') m') as Hinv.
  { clear acts. induction acts as [|a acts IH]; intros m Hm; simpl; auto.
    apply IH.
    pose proof (licence_grows _ _ (act_slots_grow env this m a)) as Hgrow.
    destruct a as [x|]; cbn [act] in *.
    - destruct (decide (x = MgetMap)) as [->|Hx].
      + cbn [body] in *. unfold licence in Hm. destruct (map m) as [p|] eqn:Emap.
        * rewrite (getMap_memoized env this m p Emap). cbn [fst]. unfold licence.
          rewrite Emap. exact Hm.
        * destruct (getMap_first env this m Emap Hm) as [H1 [q Hq]].
          unfold licence at 1. rewrite Hq. exact H1.
      + destruct (exec_spends _ _ 0 _ (others_never_decode env this x Hx) _ m Hm)
          as (N' & nc & H & _ & Hle).
        eapply potential_le; eauto. lia.
    - destruct (tick env this m) eqn:Et; cbn [default] in *; auto.
      eapply potential_le; [eapply tick_potential; eauto|lia]. }
  destruct (Hinv acts fresh (potential_fresh _ _)) as (bw & bq & _ & _ & Hle).
  fold (lifetime env this acts) in Hle. unfold occurrences.
  unfold spent in Hle. unfold licence in Hle. destruct (map _); lia.
Qed.

(** ** Evaluating runs *)

Lemma run_step env this n m m' :
  tick env this m = Some m' -> run env this (S n) m = run env this n m'.
Proof. intros H. simpl. rewrite H. reflexivity. Qed.

Lemma run_stop env this n m : tick env this m = None -> run env this n m = m.
Proof. intros H. destruct n; simpl; [|rewrite H]; reflexivity. Qed.

(** Evaluate the first call in the goal; conversions of content and the
    test on the error code stay folded. *)
Ltac eval_call :=
  match goal with
  | |- context [exec ?p ?m] =>
      let r := eval lazy -[Buffer_from toString is_ENOENT] in (exec p m) in
      let H := fresh in
      assert (exec p m = r) as H by reflexivity;
      rewrite H; clear H; cbv beta iota
  end.

(** Evaluate one turn of the event loop in the goal. *)
Ltac eval_tick :=
  match goal with
  | |- context [run ?e ?a (S ?n) ?m] =>
      let r := eval lazy -[Buffer_from toString is_ENOENT] in (tick e a m) in
      let H := fresh in
      assert (tick e a m = r) as H by reflexivity;
      match r with
      | Some ?m' => rewrite (run_step e a n m m' H)
      | None => rewrite (run_stop e a (S n) m H)
      end; clear H
  | |- context [run ?e ?a 0 ?m] => change (run e a 0 m) with m
  end.

Ltac eval_run := repeat eval_tick.

(** As [eval_run], splitting on what the constructor [dec] of source maps
    makes of a buffer as soon as it is called. *)
Ltac eval_decoding dec :=
  repeat (eval_tick;
          try (change (Buffer_from (VBuffer ?x)) with x;
               match goal with
               | |- context [dec ?b] => destruct (dec b) eqn:?
               end)).

Ltac close_decoding dec :=
  cbv zeta; repeat split; eauto; cbn;
  repeat match goal with H : dec _ = _ |- _ => rewrite H end; reflexivity.

Lemma outcome_here h p o : outcome ((p, o) :: h) p = Some o.
Proof. simpl. rewrite Nat.eqb_refl. reflexivity. Qed.

Lemma outcome_there h p q o : q <> p -> outcome ((p, o) :: h) q = outcome h q.
Proof. intros H. simpl. apply Nat.eqb_neq in H. rewrite H. reflexivity. Qed.

(** ** Concurrent calls of [getCode] *)

Section GetCode.

Variable env : Env.
Variable this : Asset.

Lemma getCode_again m p :
  content m = Some p -> outcome (heap m) p = None ->
  exec (getCode this) m =
    (with_waiting (waiting m ++ [(p, getCode_rx (next m))]) (snd (alloc m)),
     Normal (VPromise (next m))).
Proof.
  intros Hc Hp. unfold getCode, async, getContent. simpl. rewrite Hc. simpl.
  unfold subscribe. simpl. rewrite Hp. reflexivity.
Qed.

Lemma getCode_calls n : forall m p,
  content m = Some p -> outcome (heap m) p = None ->
  calls (getCode this) n m =
    (MkMachine (content m) (mapBuffer m) (map m) (ast m) (heap m) (n + next m)
       (waiting m ++ List.map (fun r => (p, getCode_rx r)) (seq (next m) n))
       (microtasks m) (inflight m) (log m),
     List.map (fun r => Normal (VPromise r)) (seq (next m) n)).
Proof.
  induction n as [|n IH]; intros m p Hc Hp; cbn [calls].
  - simpl. rewrite app_nil_r. destruct m; reflexivity.
  - rewrite (getCode_again m p Hc Hp).
    rewrite (IH _ p); [|exact Hc|exact Hp].
    simpl. rewrite <- app_assoc. simpl.
    rewrite Nat.add_succ_r. reflexivity.
Qed.

Lemma getCode_calls_fresh ck n :
  contentKey this = Some ck ->
  calls (getCode this) (S n) fresh =
    (getCode_called ck n, List.map (fun r => Normal (VPromise r)) (0 :: seq 2 n)).
Proof.
  intros Hck. cbn [calls].
  assert (exec (getCode this) fresh =
    (MkMachine (Some 1) None None None [] 2 [(1, getCode_rx 0)] []
       [(1, ExtGetBlob ck)] [EvGetBlob ck],
     Normal (VPromise 0))) as ->.
  { unfold getCode, async. simpl. rewrite Hck. reflexivity. }
  rewrite (getCode_calls n _ 1) by reflexivity. reflexivity.
Qed.

(** A queue of jobs that each end at once. *)
Lemma run_jobs o : forall (jobs : list (Prog * pid)) (m : Machine),
  Forall (fun j => ends_with o (fst j)) jobs ->
  microtasks m = jobs -> waiting m = [] -> inflight m = [] ->
  let m' := run env this (length jobs) m in
  quiescent env this m' /\ log m' = log m /\
  (forall r, r ∈ jobs.*2 -> outcome (heap m') r = Some o) /\
  (forall r, r ∉ jobs.*2 -> outcome (heap m') r = outcome (heap m) r).
Proof.
  induction jobs as [|[P r] jobs IH]; intros m Hjobs Hq Hw Hi; cbn [run length].
  - repeat split; auto.
    + unfold quiescent, tick. rewrite Hq, Hi. reflexivity.
    + intros r Hr. inversion Hr.
  - unfold tick. rewrite Hq. inversion Hjobs as [|? ? HP Hrest]; subst.
    cbn [fst] in HP.
    destruct (HP (with_microtasks jobs m)) as (c & Hexec & Hcomp).
    unfold run_job. cbn [fst snd]. rewrite Hexec, Hcomp.
    destruct (IH (settle r o (with_microtasks jobs m)) Hrest)
      as (Hquiet & Hlog & Hin & Hout).
    { simpl. rewrite Hw. simpl. apply app_nil_r. }
    { simpl. rewrite Hw. reflexivity. }
    { simpl. exact Hi. }
    repeat split; auto.
    + intros r' Hr'. destruct (decide (r' ∈ jobs.*2)) as [Hj|Hj]; [auto|].
      rewrite Hout by exact Hj. apply elem_of_cons in Hr' as [->|]; [|done].
      apply outcome_here.
    + intros r' Hr'. apply not_elem_of_cons in Hr' as [Hne Hr'].
      rewrite Hout by exact Hr'. apply outcome_there. exact Hne.
Qed.

Lemma getCode_job_ends ck r :
  ends_with (getCode_outcome env ck)
    (fst (job_of (as_buffer (cache_getBlob env ck)) (getCode_rx r))).
Proof.
  unfold getCode_outcome. intros m.
  destruct (cache_getBlob env ck) as [e|b]; simpl; eexists; split; reflexivity.
Qed.

Lemma filter_waiting_mine (p : pid) (f : pid -> Reaction) (rs : list pid) :
  filter (fun w : pid * Reaction => fst w = p) (List.map (fun r => (p, f r)) rs)
  = List.map (fun r => (p, f r)) rs.
Proof.
  induction rs as [|r rs IH]; simpl; [reflexivity|].
  rewrite filter_cons. simpl. rewrite decide_True by reflexivity. f_equal. exact IH.
Qed.

Lemma filter_waiting_others (p : pid) (f : pid -> Reaction) (rs : list pid) :
  filter (fun w : pid * Reaction => fst w <> p) (List.map (fun r => (p, f r)) rs) = [].
Proof.
  induction rs as [|r rs IH]; simpl; [reflexivity|].
  rewrite filter_cons. simpl. rewrite decide_False by tauto. exact IH.
Qed.

Lemma settle_all p o m (f : pid -> Reaction) rs :
  waiting m = List.map (fun r => (p, f r)) rs ->
  settle p o m =
    with_microtasks (microtasks m ++ List.map (fun r => job_of o (f r)) rs)
      (with_waiting [] (with_heap ((p, o) :: heap m) m)).
Proof.
  intros Hw. unfold settle. rewrite Hw, filter_waiting_mine, filter_waiting_others.
  rewrite List.map_map. reflexivity.
Qed.

(** [S n] concurrent calls of [getCode] on an asset with a content key:
    one blob read, and one outcome for all. *)
Lemma getCode_concurrent ck n :
  contentKey this = Some ck ->
  let (m, cs) := calls (getCode this) (S n) fresh in
  let m' := run env this (S (S n)) m in
  length cs = S n /\ quiescent env this m' /\ log m' = [EvGetBlob ck] /\
  forall c, c ∈ cs -> settled c m' = Some (getCode_outcome env ck).
Proof.
  intros Hck. rewrite (getCode_calls_fresh ck n Hck).
  set (rs := 0 :: seq 2 n).
  set (o := as_buffer (cache_getBlob env ck)).
  set (jobs := List.map (fun r => job_of o (getCode_rx r)) rs).
  assert (length jobs = S n) as Hlen.
  { unfold jobs, rs. rewrite length_map. simpl. rewrite length_seq. reflexivity. }
  assert (tick env this (getCode_called ck n) =
          Some (MkMachine (Some 1) None None None [(1, o)] (n + 2) [] jobs []
                  [EvGetBlob ck])) as Htick.
  { unfold tick, getCode_called. cbn [microtasks inflight pick outcome_of].
    rewrite (settle_all 1 _ _ getCode_rx rs) by reflexivity. reflexivity. }
  rewrite (run_step _ _ _ _ _ Htick). rewrite <- Hlen.
  match goal with
  | |- context [run env this (length jobs) ?m0] =>
      destruct (run_jobs (getCode_outcome env ck) jobs m0) as (Hquiet & Hlog & Hin & _)
  end.
  { unfold jobs. apply Forall_forall. intros j Hj.
    apply list_elem_of_In, in_map_iff in Hj as (r & <- & _).
    apply getCode_job_ends. }
  { reflexivity. }
  { reflexivity. }
  { reflexivity. }
  repeat split; auto.
  - unfold jobs. rewrite !length_map. reflexivity.
  - intros c Hc.
    apply list_elem_of_In, in_map_iff in Hc as (r & <- & Hr).
    simpl. apply Hin.
    unfold jobs. apply list_elem_of_fmap. exists (job_of o (getCode_rx r)).
    split; [destruct o; reflexivity|].
    apply list_elem_of_In, in_map_iff. exists r. auto.
Qed.

End GetCode.

(** ** The slot accessors fill their slot with what they return *)

Lemma calls_memoized p m c n : exec p m = (m, c) -> calls p n m = (m, repeat c n).
Proof.
  intros H. induction n as [|n IH]; simpl; [reflexivity|].
  rewrite H, IH. reflexivity.
Qed.

Lemma getMapBuffer_fills this mk m :
  mapKey this = Some mk ->
  exists p, snd (exec (getMapBuffer this) m) = Normal (VPromise p) /\
            mapBuffer (fst (exec (getMapBuffer this) m)) = Some p.
Proof.
  intros Hk. destruct (mapBuffer m) as [p|] eqn:Hm.
  - rewrite (getMapBuffer_memoized this m p Hm). eauto.
  - unfold getMapBuffer. rewrite Hk. cbn [exec slot]. rewrite Hm. cbn [exec alloc start].
    match goal with
    | |- context [complete ?r ?c ?mm] => generalize (complete r c mm)
    end.
    intros m2. simpl. eauto.
Qed.

Lemma getMap_fills env this m :
  exists p, snd (exec (getMap env this) m) = Normal (VPromise p) /\
            map (fst (exec (getMap env this) m)) = Some p.
Proof.
  destruct (map m) as [p|] eqn:Hm.
  - rewrite (getMap_memoized env this m p Hm). eauto.
  - unfold getMap. cbn [exec slot]. rewrite Hm. cbn [exec alloc].
    match goal with
    | |- context [exec ?b ?mm] => destruct (exec b mm) as [m2 c]
    end.
    match goal with
    | |- context [complete ?r ?c ?mm] => generalize (complete r c mm)
    end.
    intros m3. simpl. eauto.
Qed.

Lemma getAST_fills this k m :
  astKey this = Some k ->
  exists p, snd (exec (getAST this) m) = Normal (VPromise p) /\
            ast (fst (exec (getAST this) m)) = Some p.
Proof.
  intros Hk. destruct (ast m) as [p|] eqn:Hm.
  - rewrite (getAST_memoized this m k p Hk Hm). eauto.
  - unfold getAST. rewrite Hk. cbn [exec slot]. rewrite Hm. cbn [exec alloc start].
    match goal with
    | |- context [subscribe ?r ?c ?mm] => generalize (subscribe r c mm)
    end.
    intros m2. simpl. eauto.
Qed.

(** After its first call a slot accessor returns the same promise to every
    further caller and does nothing else. *)
Lemma slot_accessor_memoized env this x m n :
  x = MgetMap \/ (x = MgetMapBuffer /\ mapKey this <> None) \/
  (x = MgetAST /\ astKey this <> None) ->
  let (m1, c) := exec (body env this x) m in
  (exists p, c = Normal (VPromise p)) /\ calls (body env this x) n m1 = (m1, repeat c n).
Proof.
  intros [-> | [[-> Hk] | [-> Hk]]]; cbn [body].
  - destruct (getMap_fills env this m) as (p & Hc & Hs).
    destruct (exec (getMap env this) m) as [m1 c]. simpl in *. subst c.
    split; [eauto|]. apply calls_memoized, getMap_memoized. exact Hs.
  - destruct (mapKey this) as [mk|] eqn:Emk; [|done].
    destruct (getMapBuffer_fills this mk m Emk) as (p & Hc & Hs).
    destruct (exec (getMapBuffer this) m) as [m1 c]. simpl in *. subst c.
    split; [eauto|]. apply calls_memoized, getMapBuffer_memoized. exact Hs.
  - destruct (astKey this) as [k|] eqn:Ek; [|done].
    destruct (getAST_fills this k m Ek) as (p & Hc & Hs).
    destruct (exec (getAST this) m) as [m1 c]. simpl in *. subst c.
    split; [eauto|]. eapply calls_memoized, getAST_memoized; eauto.
Qed.

(** ** Memo slots are written once *)

Lemma only_slot_same s : only_slot s s = 1.
Proof. destruct s; reflexivity. Qed.

Lemma only_slot_other s s' : s <> s' -> only_slot s s' = 0.
Proof. destruct s, s'; simpl; congruence. Qed.

Lemma only_slot_zero s s' : only_slot s s' = 0 -> s <> s'.
Proof. intros H ->. rewrite only_slot_same in H. discriminate. Qed.

Lemma slot_set_other s s' p m : s <> s' -> slot s (set_slot s' p m) = slot s m.
Proof. destruct s, s'; simpl; congruence. Qed.

Lemma filled_only_slot s m :
  filled (only_slot s) m = match slot s m with Some _ => 1 | None => 0 end.
Proof.
  unfold filled, slot_cost.
  destruct s; simpl; repeat match goal with
                            | |- context [match ?x with _ => _ end] => destruct x
                            end; reflexivity.
Qed.

Lemma filled_grows s m m' :
  slots_grow m m' -> filled (only_slot s) m <= filled (only_slot s) m'.
Proof.
  intros H. rewrite !filled_only_slot. specialize (H s).
  destruct (slot s m); [|lia]. destruct H as [? ->]; eauto.
Qed.

(** A program that spends nothing on [s] leaves [s] as it is. *)
Lemma exec_keeps s n p :
  spends no_event (only_slot s) n p -> n = 0 ->
  forall m, slot s (fst (exec p m)) = slot s m.
Proof.
  induction 1 as [n v|n e|n s0 k _ IH|n n' s0 p k _ IH Hle|n n' key k _ IH Hle
                  |n n' key k _ IH Hle|n n' k _ IH Hle|n r k _ IH|n v k _ IH
                  |n a b p cb k Hcb _ _ IH Hle|n a b bd k _ IHb _ IHk Hle
                  |n v k h Hk _ Hh _|n n' ev k _ IH Hle];
    intros -> m; simpl; auto.
  - rewrite IH by lia. apply slot_set_other, only_slot_zero. lia.
  - rewrite IH by (unfold no_event in Hle; lia). destruct s; reflexivity.
  - rewrite IH by (unfold no_event in Hle; lia). destruct s; reflexivity.
  - rewrite IH by (unfold no_event in Hle; lia). destruct s; reflexivity.
  - rewrite IH by lia. destruct s; reflexivity.
  - rewrite IH by lia. rewrite slot_resolve. destruct s; reflexivity.
  - rewrite IH by lia. rewrite slot_subscribe. destruct s; reflexivity.
  - pose proof (IHb ltac:(lia) (snd (alloc m))) as Hb. simpl in Hb.
    destruct (exec bd _) as [m2 c]. simpl in *.
    rewrite IHk by lia. rewrite slot_complete, Hb. destruct s; reflexivity.
  - rewrite IH by (unfold no_event in Hle; lia). destruct s; reflexivity.
Qed.

Lemma quiet_call s p m :
  spends no_event (only_slot s) 0 p -> quiet s m ->
  quiet s (fst (exec p m)) /\ slot s (fst (exec p m)) = slot s m.
Proof.
  intros Hp Hq. split; [|apply (exec_keeps s 0 p Hp eq_refl)].
  destruct (exec_spends _ _ 0 p Hp _ m Hq) as (N' & nc & H & _ & Hle).
  eapply potential_le; [exact H|].
  pose proof (filled_grows s m _ (exec_slots_grow p m)). lia.
Qed.

Lemma quiet_turn env this s m m' :
  tick env this m = Some m' -> quiet s m -> quiet s m' /\ slot s m' = slot s m.
Proof.
  intros Ht Hq. split.
  - eapply potential_le; [eapply tick_potential; eauto|].
    apply filled_grows. eapply tick_slots_grow; eauto.
  - revert Ht. unfold tick. destruct (microtasks m) as [|job rest] eqn:Eq.
    + destruct (pick env this (inflight m) m) as [[[p o] rest]|]; [|done].
      intros [= <-]. rewrite slot_settle. destruct s; reflexivity.
    + intros [= <-]. destruct Hq as (bw & bq & _ & Hjobs & Hle).
      rewrite Eq in Hjobs. inversion Hjobs as [|n k x l Hjob Hrest]; subst.
      assert (n = 0) as -> by lia.
      unfold run_job.
      pose proof (exec_keeps s 0 (fst job) Hjob eq_refl (with_microtasks rest m)) as Hk.
      destruct (exec (fst job) _) as [m1 c]. simpl in *.
      rewrite slot_complete, Hk. destruct s; reflexivity.
Qed.

Lemma quiet_fresh s : quiet s fresh.
Proof. apply potential_fresh. Qed.

Lemma exec_bind p f : forall m,
  exec (bind p f) m =
    match exec p m with
    | (m', Normal v) => exec (f v) m'
    | (m', Abrupt e) => (m', Abrupt e)
    | (m', Suspended v k h) =>
        (m', Suspended v (fun x => bind (k x) f) (fun e => bind (h e) f))
    end.
Proof.
  induction p as [v|e|s k IH|s q k IH|key k IH|key k IH|k IH|r k IH|v k IH
                  |q cb _ k IH|bd IHb k IH|v k _ h _|ev k IH];
    intros m; simpl; auto.
  destruct (exec bd _) as [m2 c]. apply IH.
Qed.

(** *** [this.map] *)

Lemma others_keep_map env this x :
  x <> MgetMap -> spends no_event (only_slot Map) 0 (body env this x).
Proof.
  intros Hx. destruct this as [ck mk ak]; simpl in *; subst.
  destruct x; try done; open_methods.
  all: spends0 no_event (only_slot Map).
Qed.

Lemma getMap_quiet env this m :
  quiet Map m ->
  quiet Map (fst (exec (getMap env this) m)) /\
  forall p, map m = Some p -> map (fst (exec (getMap env this) m)) = Some p.
Proof.
  intros Hq. destruct (map m) as [p|] eqn:Hm.
  - rewrite (getMap_memoized env this m p Hm). split; [exact Hq|]. intros ? [= <-]. exact Hm.
  - split; [|discriminate].
    destruct (getMap_fills env this m) as (p & _ & Hfill).
    unfold quiet. rewrite filled_only_slot. cbn [slot]. rewrite Hfill.
    revert Hfill. unfold getMap. cbn [exec slot]. rewrite Hm. intros _.
    match goal with |- potential _ _ _ (fst (exec ?p0 _)) => set (prog := p0) end.
    assert (spends no_event (only_slot Map) 1 prog) as Hp.
    { apply (spends_Async _ _ 1 0 1); [|intro|reflexivity].
      - apply (spends_bind _ _ 0 0 0); [|intro|reflexivity].
        + apply (others_keep_map env this MgetMapBuffer). done.
        + unfold await, getMap_rest. spends0 no_event (only_slot Map).
      - apply (spends_WriteSlot _ _ 1 0); [|reflexivity].
        spends0 no_event (only_slot Map). }
    destruct (exec_spends _ _ 1 prog Hp _ m Hq) as (N' & nc & H & _ & Hle).
    eapply potential_le; [exact H|].
    rewrite filled_only_slot in Hle. cbn [slot] in Hle. rewrite Hm in Hle. lia.
Qed.

(** *** [this.ast] *)

Lemma others_keep_ast env this x :
  x <> MgetAST -> spends no_event (only_slot Ast) 0 (body env this x).
Proof.
  intros Hx. destruct this as [ck mk ak]; simpl in *; subst.
  destruct x; try done; open_methods.
  all: spends0 no_event (only_slot Ast).
Qed.

Lemma getAST_quiet this m :
  quiet Ast m ->
  quiet Ast (fst (exec (getAST this) m)) /\
  forall p, ast m = Some p -> ast (fst (exec (getAST this) m)) = Some p.
Proof.
  intros Hq. destruct (astKey this) as [k|] eqn:Hk.
  - destruct (ast m) as [p|] eqn:Hm.
    + rewrite (getAST_memoized this m k p Hk Hm).
      split; [exact Hq|]. intros ? [= <-]. exact Hm.
    + split; [|discriminate].
      destruct (getAST_fills this k m Hk) as (p & _ & Hfill).
      unfold quiet. rewrite filled_only_slot. cbn [slot]. rewrite Hfill.
      revert Hfill. unfold getAST. rewrite Hk. cbn [exec slot]. rewrite Hm. intros _.
      match goal with |- potential _ _ _ (fst (exec ?p0 _)) => set (prog := p0) end.
      assert (spends no_event (only_slot Ast) 1 prog) as Hp.
      { apply (spends_CacheGetBlob _ _ 1 1); [intro|reflexivity].
        apply (spends_Then _ _ 1 0 1); [intro|intro|reflexivity].
        - spends0 no_event (only_slot Ast).
        - apply (spends_WriteSlot _ _ 1 0); [|reflexivity].
          spends0 no_event (only_slot Ast). }
      destruct (exec_spends _ _ 1 prog Hp _ m Hq) as (N' & nc & H & _ & Hle).
      eapply potential_le; [exact H|].
      rewrite filled_only_slot in Hle. cbn [slot] in Hle. rewrite Hm in Hle. lia.
  - assert (spends no_event (only_slot Ast) 0 (getAST this)) as Hp.
    { unfold getAST. rewrite Hk. spends0 no_event (only_slot Ast). }
    destruct (quiet_call Ast _ m Hp Hq) as [H1 H2]. split; [exact H1|].
    intros p Hm. cbn [slot] in H2. rewrite H2. exact Hm.
Qed.

(** *** [this.mapBuffer] *)

Lemma others_keep_mapBuffer env this x :
  x <> MgetMapBuffer -> x <> MgetMap ->
  spends no_event (only_slot MapBuffer) 0 (body env this x).
Proof.
  intros Hx Hy. destruct this as [ck mk ak]; simpl in *; subst.
  destruct x; try done; open_methods.
  all: spends0 no_event (only_slot MapBuffer).
Qed.

Lemma getMapBuffer_quiet (env : Env) this m :
  quiet MapBuffer m ->
  quiet MapBuffer (fst (exec (getMapBuffer this) m)) /\
  forall p, mapBuffer m = Some p ->
            mapBuffer (fst (exec (getMapBuffer this) m)) = Some p.
Proof.
  intros Hq. destruct (mapKey this) as [mk|] eqn:Hk.
  - destruct (mapBuffer m) as [p|] eqn:Hm.
    + rewrite (getMapBuffer_memoized this m p Hm).
      split; [exact Hq|]. intros ? [= <-]. exact Hm.
    + split; [|discriminate].
      destruct (getMapBuffer_fills this mk m Hk) as (p & _ & Hfill).
      unfold quiet. rewrite filled_only_slot. cbn [slot]. rewrite Hfill.
      revert Hfill. unfold getMapBuffer. rewrite Hk. cbn [exec slot]. rewrite Hm.
      intros _.
      match goal with |- potential _ _ _ (fst (exec ?p0 _)) => set (prog := p0) end.
      assert (spends no_event (only_slot MapBuffer) 1 prog) as Hp.
      { apply (spends_Async _ _ 1 0 1); [|intro|reflexivity].
        - spends0 no_event (only_slot MapBuffer).
        - apply (spends_WriteSlot _ _ 1 0); [|reflexivity].
          spends0 no_event (only_slot MapBuffer). }
      destruct (exec_spends _ _ 1 prog Hp _ m Hq) as (N' & nc & H & _ & Hle).
      eapply potential_le; [exact H|].
      rewrite filled_only_slot in Hle. cbn [slot] in Hle. rewrite Hm in Hle. lia.
  - destruct (quiet_call MapBuffer _ m (methods_keep_mapBuffer env this MgetMapBuffer Hk) Hq)
      as [H1 H2].
    split; [exact H1|]. intros p Hm. cbn [slot body] in H2. rewrite H2. exact Hm.
Qed.

Lemma getMapBuffer_returns this m :
  exists p, snd (exec (getMapBuffer this) m) = Normal (VPromise p).
Proof.
  destruct (mapKey this) as [mk|] eqn:Hk.
  - destruct (getMapBuffer_fills this mk m Hk) as (p & H & _). eauto.
  - unfold getMapBuffer. rewrite Hk. cbn [exec slot].
    destruct (mapBuffer m); cbn; eauto.
Qed.

Lemma getMap_first_call (env : Env) this m :
  map m = None ->
  exists p,
    fst (exec (getMap env this) m) =
      set_slot Map (next m)
        (subscribe p (MkReaction (getMap_rest env) Throw (next m))
           (fst (exec (getMapBuffer this) (snd (alloc m))))).
Proof.
  intros Hm. destruct (getMapBuffer_returns this (snd (alloc m))) as [p Hp].
  exists p. unfold getMap. cbn [exec slot]. rewrite Hm. cbn [exec alloc].
  rewrite exec_bind.
  change (MkMachine (content m) (mapBuffer m) (map m) (ast m) (heap m) (S (next m))
            (waiting m) (microtasks m) (inflight m) (log m)) with (snd (alloc m)).
  destruct (exec (getMapBuffer this) (snd (alloc m))) as [m2 c]. cbn [snd] in Hp.
  subst c. reflexivity.
Qed.

Lemma getMap_quiet_mapBuffer (env : Env) this m :
  quiet MapBuffer m ->
  quiet MapBuffer (fst (exec (getMap env this) m)) /\
  forall p, mapBuffer m = Some p -> mapBuffer (fst (exec (getMap env this) m)) = Some p.
Proof.
  intros Hq. destruct (map m) as [q|] eqn:Hm.
  - rewrite (getMap_memoized env this m q Hm). auto.
  - destruct (getMap_first_call env this m Hm) as [p ->].
    assert (quiet MapBuffer (snd (alloc m))) as Hq1.
    { unfold quiet in *. rewrite filled_only_slot in *. apply potential_alloc. exact Hq. }
    destruct (getMapBuffer_quiet env this _ Hq1) as [Hq2 Hkeep].
    set (m2 := fst (exec (getMapBuffer this) (snd (alloc m)))) in *.
    split.
    + unfold quiet in *. rewrite filled_only_slot in *. cbn [slot].
      assert (mapBuffer (set_slot Map (next m)
                (subscribe p (MkReaction (getMap_rest env) Throw (next m)) m2)) = mapBuffer m2)
        as ->.
      { change (slot MapBuffer (set_slot Map (next m)
                  (subscribe p (MkReaction (getMap_rest env) Throw (next m)) m2))
                = slot MapBuffer m2).
        rewrite slot_set_other by discriminate. apply slot_subscribe. }
      assert (rx_spends no_event (only_slot MapBuffer) 0
                (p, MkReaction (getMap_rest env) Throw (next m))) as Hrx.
      { split; cbn; intros; unfold getMap_rest; spends0 no_event (only_slot MapBuffer). }
      pose proof (potential_subscribe _ _ _ 0 _ p _ Hq2 Hrx) as H1.
      pose proof (potential_set_slot _ _ _ _ Map (next m) H1) as H2.
      eapply potential_le; [exact H2|]. simpl. lia.
    + intros p0 Hp0.
      change (slot MapBuffer (set_slot Map (next m)
                (subscribe p (MkReaction (getMap_rest env) Throw (next m)) m2)) = Some p0).
      rewrite slot_set_other by discriminate. rewrite slot_subscribe.
      apply Hkeep. exact Hp0.
Qed.

(** *** Written once *)

Lemma act_quiet env this s m a :
  owned s -> quiet s m ->
  quiet s (act env this m a) /\
  forall p, slot s m = Some p -> slot s (act env this m a) = Some p.
Proof.
  intros Hs Hq. destruct a as [x|]; cbn [act].
  - assert (spends no_event (only_slot s) 0 (body env this x) ->
            quiet s (fst (exec (body env this x) m)) /\
            forall p, slot s m = Some p -> slot s (fst (exec (body env this x) m)) = Some p)
      as Hclean.
    { intros Hp. destruct (quiet_call s _ m Hp Hq) as [H1 H2].
      split; [exact H1|]. intros p Hm. rewrite H2. exact Hm. }
    destruct Hs as [-> | [-> | ->]].
    + destruct (decide (x = MgetMapBuffer)) as [->|Hx];
        [apply (getMapBuffer_quiet env); exact Hq|].
      destruct (decide (x = MgetMap)) as [->|Hy];
        [apply getMap_quiet_mapBuffer; exact Hq|].
      apply Hclean, others_keep_mapBuffer; assumption.
    + destruct (decide (x = MgetMap)) as [->|Hx]; [apply getMap_quiet; exact Hq|].
      apply Hclean, others_keep_map; assumption.
    + destruct (decide (x = MgetAST)) as [->|Hx]; [apply getAST_quiet; exact Hq|].
      apply Hclean, others_keep_ast; assumption.
  - destruct (tick env this m) as [m'|] eqn:Et; simpl; [|auto].
    destruct (quiet_turn env this s m m' Et Hq) as [H1 H2].
    split; [exact H1|]. intros p Hm. rewrite H2. exact Hm.
Qed.

(** Once [this.mapBuffer], [this.map] or [this.ast] holds a promise, it
    holds that promise for the rest of the asset's life. *)
Lemma memo_slot_written_once env this s acts more p :
  owned s ->
  slot s (lifetime env this acts) = Some p ->
  slot s (lifetime env this (acts ++ more)) = Some p.
Proof.
  intros Hs. unfold lifetime. rewrite fold_left_app.
  assert (quiet s (fold_left (act env this) acts fresh)) as Hq.
  { generalize (quiet_fresh s). generalize fresh.
    induction acts as [|a acts IH]; intros m Hm; simpl; auto.
    apply IH. apply act_quiet; assumption. }
  revert Hq. generalize (fold_left (act env this) acts fresh).
  induction more as [|a more IH]; intros m Hq Hm; simpl; auto.
  destruct (act_quiet env this s m a Hs Hq) as [Hq' Hkeep].
  apply IH; auto.
Qed.

(** What a slot accessor returns once, it returns for life. *)
Lemma slot_accessor_for_life env this x s :
  (x = MgetMap /\ s = Map) \/
  (x = MgetMapBuffer /\ s = MapBuffer /\ mapKey this <> None) \/
  (x = MgetAST /\ s = Ast /\ astKey this <> None) ->
  returns_for_life env this x.
Proof.
  intros Hx acts more.
  assert (owned s) as Hs by (unfold owned; destruct Hx as [[_ ->]|[(_ & -> & _)|(_ & -> & _)]]; auto).
  assert (exists p, snd (exec (body env this x) (lifetime env this acts)) = Normal (VPromise p) /\
                    slot s (fst (exec (body env this x) (lifetime env this acts))) = Some p /\
                    forall m, slot s m = Some p ->
                              exec (body env this x) m = (m, Normal (VPromise p)))
    as (p & Hc & Hfill & Hmemo).
  { destruct Hx as [[-> ->]|[(-> & -> & Hk)|(-> & -> & Hk)]]; cbn [body slot].
    - destruct (getMap_fills env this (lifetime env this acts)) as (p & H1 & H2).
      exists p. repeat split; auto. intros m. apply getMap_memoized.
    - destruct (mapKey this) as [mk|] eqn:Emk; [|done].
      destruct (getMapBuffer_fills this mk (lifetime env this acts) Emk) as (p & H1 & H2).
      exists p. repeat split; auto. intros m. apply getMapBuffer_memoized.
    - destruct (astKey this) as [k|] eqn:Ek; [|done].
      destruct (getAST_fills this k (lifetime env this acts) Ek) as (p & H1 & H2).
      exists p. repeat split; auto. intros m. apply (getAST_memoized this m k p Ek). }
  destruct (exec (body env this x) (lifetime env this acts)) as [m1 c] eqn:Ex.
  cbn [fst snd] in Hc, Hfill. subst c. cbv zeta. exists p. split; [reflexivity|].
  apply Hmemo.
  replace (acts ++ Call x :: more)%list with ((acts ++ [Call x]) ++ more)%list
    by (rewrite <- app_assoc; reflexivity).
  apply memo_slot_written_once; [exact Hs|].
  unfold lifetime. rewrite fold_left_app. cbn [fold_left act].
  fold (lifetime env this acts). rewrite Ex. exact Hfill.
Qed.

(** ** The content store against its specification *)

(** C3: with no memoized content and neither a content key nor an AST key,
    [getContent] throws the error "Asset has no content", and so does every
    content request: [getStream] throws it, [getCode] and [getBuffer] reject
    with it.  With either key present [getContent] returns a producer and
    throws nothing. *)
Theorem no_content_is_a_hard_error this m :
  content m = None ->
  (contentKey this = None -> astKey this = None ->
   exec (getContent this) m = (m, Abrupt NoContentError) /\
   exec (getStream this) m = (m, Abrupt NoContentError) /\
   (exists m', exec (getCode this) m = (m', Normal (VPromise (next m))) /\
               outcome (heap m') (next m) = Some (Rejected NoContentError)) /\
   (exists m', exec (getBuffer this) m = (m', Normal (VPromise (next m))) /\
               outcome (heap m') (next m) = Some (Rejected NoContentError))) /\
  (contentKey this <> None \/ astKey this <> None ->
   exists m' f, exec (getContent this) m = (m', Normal (VFunction f))).
Proof.
  intros Hc. destruct this as [ck mk ak]; simpl. split.
  - intros -> ->. unfold getStream, getCode, getBuffer, async, getContent. simpl.
    rewrite Hc. simpl. repeat split; try reflexivity.
    + eexists; split; [reflexivity|]. apply outcome_here.
    + eexists; split; [reflexivity|]. apply outcome_here.
  - intros Hkeys. unfold getContent. simpl. rewrite Hc.
    destruct ck as [ck|]; [simpl; eauto|].
    destruct ak as [ak|]; [simpl; eauto|].
    destruct Hkeys; congruence.
Qed.

Lemma no_content_is_a_hard_error_witness :
  exec (getContent no_keys) fresh = (fresh, Abrupt NoContentError) /\
  exists m' f, exec (getContent content_only) fresh = (m', Normal (VFunction f)).
Proof.
  split.
  - apply (no_content_is_a_hard_error no_keys fresh); reflexivity.
  - apply (no_content_is_a_hard_error content_only fresh); [reflexivity|].
    left. discriminate.
Defined.




(** What [getMapBuffer] does on a fresh asset with a map key. *)
Lemma getMapBuffer_run env this mk :
  mapKey this = Some mk ->
  let (m0, c) := exec (getMapBuffer this) fresh in
  let m1 := run env this 4 m0 in
  quiescent env this m1 /\
  settled c m1 = Some (getMapBuffer_outcome env this mk) /\
  log m1 = EvGetBlob mk :: (if falls_back env this mk then [EvGenerateFromAST] else []) /\
  c = Normal (VPromise 0) /\ mapBuffer m1 = Some 0.
Proof.
  intros Hk. destruct this as [ck mk' ak], env as [gb gs gen].
  simpl in Hk. subst mk'. unfold getMapBuffer_outcome, falls_back.
  cbn [cache_getBlob generateFromAST astKey].
  eval_call. eval_tick.
  destruct (gb mk) as [err|b].
  - destruct (is_ENOENT err) eqn:Eerr; [destruct ak as [ak|]|].
    + do 2 eval_tick.
      destruct (gen _) as [e|[content [sm|]]]; eval_run; cbv zeta; repeat split.
    + eval_run. cbv zeta. repeat split.
    + eval_run. cbv zeta. repeat split.
  - eval_run. cbv zeta. repeat split.
Qed.

(** C4: with a map key, [getMapBuffer] resolves to the cached blob; when the
    read fails with code ENOENT and the asset has an AST key, to the buffer
    of the map that [generateFromAST] produced; any other failure of the
    read, or ENOENT without an AST key, rejects with the cache's error.  The
    promise is stored in [this.mapBuffer] and returned to every later
    caller, whatever else is called on the asset in between. *)
Theorem getMapBuffer_reads_or_regenerates env this mk :
  mapKey this = Some mk ->
  let (m0, c) := exec (getMapBuffer this) fresh in
  let m1 := run env this 4 m0 in
  quiescent env this m1 /\
  settled c m1 = Some (getMapBuffer_outcome env this mk) /\
  log m1 = EvGetBlob mk :: (if falls_back env this mk then [EvGenerateFromAST] else []) /\
  (exists p, c = Normal (VPromise p) /\ mapBuffer m1 = Some p) /\
  (forall n, calls (getMapBuffer this) n m1 = (m1, repeat c n)) /\
  returns_for_life env this MgetMapBuffer.
Proof.
  intros Hk. pose proof (getMapBuffer_run env this mk Hk) as H.
  destruct (exec (getMapBuffer this) fresh) as [m0 c].
  destruct H as (H1 & H2 & H3 & -> & H5).
  repeat split; eauto.
  - intros n. apply calls_memoized, getMapBuffer_memoized. exact H5.
  - apply (slot_accessor_for_life env this MgetMapBuffer MapBuffer).
    right; left. rewrite Hk. done.
Qed.

Lemma getMapBuffer_reads_or_regenerates_witness :
  let (m0, c) := exec (getMapBuffer with_map) fresh in
  let m1 := run sample_env with_map 4 m0 in
  quiescent sample_env with_map m1 /\
  settled c m1 = Some (getMapBuffer_outcome sample_env with_map "map") /\
  log m1 = EvGetBlob "map" ::
             (if falls_back sample_env with_map "map" then [EvGenerateFromAST] else []) /\
  (exists p, c = Normal (VPromise p) /\ mapBuffer m1 = Some p) /\
  (forall n, calls (getMapBuffer with_map) n m1 = (m1, repeat c n)) /\
  returns_for_life sample_env with_map MgetMapBuffer.
Proof.
  apply (getMapBuffer_reads_or_regenerates sample_env with_map "map"). reflexivity.
Defined.

(** C10: without a map key, every call of [getMapBuffer], at any point of
    the asset's life, returns a new promise that is already fulfilled with
    [undefined]; it reads nothing from the cache, starts no operation and
    throws nothing, whatever the other keys are. *)
Theorem getMapBuffer_without_mapKey env this acts :
  mapKey this = None ->
  let m := lifetime env this acts in
  let (m', c) := exec (getMapBuffer this) m in
  c = Normal (VPromise (next m)) /\
  settled c m' = Some (Fulfilled VUndefined) /\
  log m' = log m /\ inflight m' = inflight m /\ mapBuffer m' = None.
Proof.
  intros Hk. pose proof (mapBuffer_never_filled env this acts Hk) as Hm.
  cbv zeta. generalize dependent (lifetime env this acts). intros m Hm.
  unfold getMapBuffer. rewrite Hk. cbn [exec slot]. rewrite Hm. cbn.
  rewrite Nat.eqb_refl. repeat split. exact Hm.
Qed.

Lemma getMapBuffer_without_mapKey_witness :
  let m := lifetime sample_env content_only [Call MgetCode; Turn; Call MgetMap] in
  let (m', c) := exec (getMapBuffer content_only) m in
  c = Normal (VPromise (next m)) /\
  settled c m' = Some (Fulfilled VUndefined) /\
  log m' = log m /\ inflight m' = inflight m /\ mapBuffer m' = None.
Proof.
  apply (getMapBuffer_without_mapKey sample_env content_only). reflexivity.
Defined.

(** What [getMap] does on a fresh asset. *)
Lemma getMap_run env this :
  let (m0, c) := exec (getMap env this) fresh in
  let m1 := run env this 5 m0 in
  quiescent env this m1 /\
  settled c m1 = Some (getMap_outcome env (mapBuffer_outcome env this)) /\
  memo MapBuffer m1 =
    match mapKey this with
    | Some mk => Some (getMapBuffer_outcome env this mk)
    | None => None
    end /\
  log m1 =
    (match mapKey this with
     | Some mk =>
         EvGetBlob mk :: (if falls_back env this mk then [EvGenerateFromAST] else [])
     | None => []
     end ++
     match mapBuffer_outcome env this with
     | Fulfilled (VBuffer _) => [EvNewSourceMap]
     | _ => []
     end)%list /\
  exists p, c = Normal (VPromise p) /\ map m1 = Some p.
Proof.
  destruct this as [ck mk ak], env as [gb gs gen dec].
  unfold mapBuffer_outcome, getMapBuffer_outcome, falls_back.
  cbn [cache_getBlob generateFromAST astKey mapKey].
  destruct mk as [mk|].
  - eval_call. eval_tick.
    destruct (gb mk) as [err|b].
    + destruct (is_ENOENT err) eqn:Eerr; [destruct ak as [ak|]|].
      * do 2 eval_tick.
        destruct (gen _) as [e|[content [[sm]|]]]; eval_decoding dec;
          close_decoding dec.
      * eval_run. cbv zeta. repeat split; eauto.
      * eval_run. cbv zeta. repeat split; eauto.
    + eval_decoding dec; close_decoding dec.
  - eval_call. eval_run. cbv zeta. repeat split; eauto.
Qed.

(** C7, as amended: [getMap] passes the bytes that [getMapBuffer] resolved
    to to the constructor of [SourceMap] and resolves to the source map it
    returns, or rejects with what it throws; it resolves to [undefined]
    when there are no bytes, and rejects when [getMapBuffer] rejects.  Its
    promise is stored in [this.map] and returned to every later caller,
    whatever else is called on the asset in between, and in the whole life
    of the asset the constructor is called at most once. *)
Theorem getMap_decodes_once env this :
  (let (m0, c) := exec (getMap env this) fresh in
   let m1 := run env this 5 m0 in
   quiescent env this m1 /\
   settled c m1 = Some (getMap_outcome env (mapBuffer_outcome env this)) /\
   (forall mk, mapKey this = Some mk ->
      memo MapBuffer m1 = Some (mapBuffer_outcome env this)) /\
   (forall n, calls (getMap env this) n m1 = (m1, repeat c n))) /\
  returns_for_life env this MgetMap /\
  (forall acts, occurrences EvNewSourceMap (log (lifetime env this acts)) <= 1).
Proof.
  split; [|split; [|apply source_map_decoded_once]];
    [|apply (slot_accessor_for_life env this MgetMap Map); left; done].
  pose proof (getMap_run env this) as H.
  destruct (exec (getMap env this) fresh) as [m0 c].
  destruct H as (H1 & H2 & H3 & _ & (p & -> & Hp)).
  repeat split; auto.
  - intros mk Hk. unfold mapBuffer_outcome. rewrite Hk in *. exact H3.
  - intros n. apply calls_memoized, getMap_memoized. exact Hp.
Qed.

Lemma getMap_decodes_once_witness :
  let (m0, c) := exec (getMap sample_env with_map) fresh in
  let m1 := run sample_env with_map 5 m0 in
  memo MapBuffer m1 = Some (mapBuffer_outcome sample_env with_map).
Proof.
  pose proof (getMap_decodes_once sample_env with_map) as [H _].
  destruct (exec (getMap sample_env with_map) fresh) as [m0 c].
  destruct H as (_ & _ & H & _). apply (H "map"). reflexivity.
Defined.

(** C7, as stated, fails: without map bytes [getMap] resolves to
    [undefined], which is not [null]; and with map bytes that the
    constructor of [SourceMap] does not take, [getMap] rejects with what
    the constructor throws and gives no source map. *)
Lemma getMap_resolves_to_undefined_not_null :
  (let (m0, c) := exec (getMap sample_env content_only) fresh in
   let m1 := run sample_env content_only 5 m0 in
   settled c m1 = Some (Fulfilled VUndefined) /\
   settled c m1 <> Some (Fulfilled VNull)) /\
  (let (m0, c) := exec (getMap sample_env with_map) fresh in
   let m1 := run sample_env with_map 5 m0 in
   memo MapBuffer m1 = Some (Fulfilled (VBuffer ["m"%byte])) /\
   settled c m1 = Some (Rejected InvalidSourceMap)).
Proof.
  vm_compute. repeat split; discriminate.
Qed.





(** C1, as stated, fails: two concurrent first calls of [getCode] on an
    asset that has only an AST key start two code generations, two of
    [getBuffer] on an asset with a content key open two cache streams, and
    so do two calls of [getStream]. *)
Lemma concurrent_first_calls_fetch_twice :
  ~ collapses sample_env ast_only (getCode ast_only) 2 8 /\
  log (fst (calls (getCode ast_only) 2 fresh)) = [EvGenerateFromAST; EvGenerateFromAST] /\
  ~ collapses sample_env content_only (getBuffer content_only) 2 8 /\
  log (run sample_env content_only 8 (fst (calls (getBuffer content_only) 2 fresh)))
    = [EvGetStream "content"; EvGetStream "content"] /\
  ~ collapses sample_env content_only (getStream content_only) 2 0.
Proof.
  unfold collapses. vm_compute. repeat split; lia.
Qed.

(** C1, as amended: the accessors that assign their memo slot before
    their first [await] collapse concurrent calls.  Any number of concurrent
    [getCode] calls on an asset with a content key make one blob read and
    all resolve alike; [getMap], [getMapBuffer] on an asset with a map key
    and [getAST] on an asset with an AST key return, after their first call,
    the same promise to every caller without doing anything else, both to
    calls that follow at once and to calls at any later point of the
    asset's life. *)
Theorem memoized_accessors env this :
  (forall ck n, contentKey this = Some ck ->
     let (m, cs) := calls (getCode this) (S n) fresh in
     let m' := run env this (S (S n)) m in
     collapses env this (getCode this) (S n) (S (S n)) /\
     length cs = S n /\ quiescent env this m' /\ log m' = [EvGetBlob ck] /\
     forall c, c ∈ cs -> settled c m' = Some (getCode_outcome env ck)) /\
  (forall x m n,
     x = MgetMap \/ (x = MgetMapBuffer /\ mapKey this <> None) \/
     (x = MgetAST /\ astKey this <> None) ->
     let (m1, c) := exec (body env this x) m in
     (exists p, c = Normal (VPromise p)) /\
     calls (body env this x) n m1 = (m1, repeat c n)) /\
  (forall x,
     x = MgetMap \/ (x = MgetMapBuffer /\ mapKey this <> None) \/
     (x = MgetAST /\ astKey this <> None) ->
     returns_for_life env this x).
Proof.
  split; [|split].
  - intros ck n Hck. pose proof (getCode_concurrent env this ck n Hck) as H.
    unfold collapses.
    destruct (calls (getCode this) (S n) fresh) as [m cs]. cbv zeta in H |- *.
    destruct H as (H1 & H2 & H3 & H4). cbn [fst]. rewrite H3.
    repeat split; auto.
  - intros x m n Hx. apply slot_accessor_memoized. exact Hx.
  - intros x Hx.
    destruct Hx as [->|[[-> Hk]|[-> Hk]]].
    + apply (slot_accessor_for_life env this MgetMap Map). auto.
    + apply (slot_accessor_for_life env this MgetMapBuffer MapBuffer). auto.
    + apply (slot_accessor_for_life env this MgetAST Ast). auto.
Qed.

Lemma memoized_accessors_witness :
  let (m, cs) := calls (getCode content_only) 3 fresh in
  let m' := run sample_env content_only 4 m in
  collapses sample_env content_only (getCode content_only) 3 4 /\
  length cs = 3 /\ quiescent sample_env content_only m' /\
  log m' = [EvGetBlob "content"] /\
  forall c, c ∈ cs -> settled c m' = Some (getCode_outcome sample_env "content").
Proof.
  exact (proj1 (memoized_accessors sample_env content_only) "content" 2 eq_refl).
Defined.

End StoreFacts.

(** * Facts about the symbol resolver *)

Module ResolverFacts.

Import Resolver.

Section Resolution.

Variable g : Graph.
Variable boundary : option Bundle.

(** With more fuel than there are pairs left to visit, resolution ends. *)
Lemma resolution_total fuel : forall visited a s last,
  visited ⊆ dom (exports g) ->
  size (dom (exports g)) < fuel + size visited ->
  is_Some (resolution g boundary fuel visited a s last).
Proof.
  induction fuel as [|fuel IH]; intros visited a s last Hsub Hsize.
  - apply subseteq_size in Hsub. simpl in Hsize. lia.
  - simpl. destruct (decide ((a, s) ∈ visited)) as [Hin|Hout]; [eauto|].
    destruct (exports g !! (a, s)) as [[next s' l|local l]|] eqn:Elook;
      [|destruct (decide _); eauto|eauto].
    destruct (leaves boundary next); [eauto|].
    apply IH.
    + apply union_subseteq. split; [|exact Hsub].
      apply singleton_subseteq_l, elem_of_dom. eauto.
    + rewrite size_union by set_solver. rewrite size_singleton. lia.
Qed.

Lemma getSymbolResolution_total a s :
  is_Some (getSymbolResolution g a s boundary).
Proof.
  unfold getSymbolResolution. apply resolution_total.
  - set_solver.
  - rewrite size_empty. lia.
Qed.

(** The result does not depend on how much fuel was left over. *)
Lemma resolution_fuel f1 : forall f2 visited a s last r1 r2,
  resolution g boundary f1 visited a s last = Some r1 ->
  resolution g boundary f2 visited a s last = Some r2 -> r1 = r2.
Proof.
  induction f1 as [|f1 IH]; intros [|f2] visited a s last r1 r2 H1 H2;
    try discriminate.
  simpl in H1, H2.
  destruct (decide ((a, s) ∈ visited)); [congruence|].
  destruct (exports g !! (a, s)) as [[next s' l|local l]|]; [|congruence|congruence].
  destruct (leaves boundary next); [congruence|]. eauto.
Qed.

Lemma follows_deterministic x y z :
  follows g boundary x y -> follows g boundary x z -> y = z.
Proof.
  intros (l1 & H1 & _) (l2 & H2 & _). rewrite H1 in H2.
  destruct y, z; simpl in *. congruence.
Qed.

(** A pair on a cycle of re-exports only reaches pairs that re-export
    within the boundary. *)
Lemma cycle_never_stops x y :
  tc (follows g boundary) x x -> rtc (follows g boundary) x y ->
  exists z, follows g boundary y z.
Proof.
  intros Hcyc Hreach. induction Hreach as [x|x x1 y Hstep Hreach IH].
  - inversion Hcyc; eauto.
  - apply IH.
    assert (rtc (follows g boundary) x1 x) as Hback.
    { inversion Hcyc as [? ? Hs|? x1' ? Hs Hrest]; subst.
      - rewrite <- (follows_deterministic _ _ _ Hstep Hs). apply rtc_refl.
      - rewrite (follows_deterministic _ _ _ Hstep Hs). apply tc_rtc. exact Hrest. }
    eapply tc_rtc_l; [exact Hback|]. apply tc_once. exact Hstep.
Qed.

(** Resolution walks the chain of re-exports up to the pair whose
    re-export leaves the boundary, and stops there. *)
Lemma resolution_along_chain x t :
  rtc (follows g boundary) x t ->
  forall next s' l, exports g !! t = Some (ReExport next s' l) ->
  leaves boundary next = true ->
  forall fuel visited last r,
    (forall v, v ∈ visited -> tc (follows g boundary) v x) ->
    resolution g boundary fuel visited (fst x) (snd x) last = Some r ->
    asset r = fst t /\ exportSymbol r = snd t /\ symbol r = SymUndefined.
Proof.
  intros Hreach next s' l Ht Hleaves.
  assert (forall z, ~ follows g boundary t z) as Hstop.
  { intros z (l' & Hz & Hstay). rewrite Ht in Hz. injection Hz as E1 _ _.
    rewrite <- E1 in Hstay. congruence. }
  induction Hreach as [[a s]|[a s] [a1 s1] t Hstep Hreach IH];
    intros fuel visited last r Hvis Hres; destruct fuel as [|fuel];
    try discriminate; simpl in Hres.
  - destruct (decide ((a, s) ∈ visited)) as [Hin|Hout].
    + destruct (cycle_never_stops (a, s) (a, s) (Hvis _ Hin) (rtc_refl _ _)) as [z Hz].
      destruct (Hstop z Hz).
    + rewrite Ht, Hleaves in Hres. injection Hres as <-. auto.
  - destruct (decide ((a, s) ∈ visited)) as [Hin|Hout].
    + destruct (cycle_never_stops (a, s) t (Hvis _ Hin)) as [z Hz].
      { eapply rtc_l; eauto. }
      destruct (Hstop z Hz).
    + destruct Hstep as (l1 & Hlook & Hstay). simpl in Hlook, Hstay.
      rewrite Hlook, Hstay in Hres.
      apply (IH Ht Hstop fuel ({[(a, s)]} ∪ visited) l1 r); [|exact Hres].
      intros v Hv. apply elem_of_union in Hv as [Hv|Hv].
      * apply elem_of_singleton in Hv as ->. apply tc_once. exists l1. auto.
      * eapply tc_r; [apply Hvis; exact Hv|]. exists l1. auto.
Qed.

End Resolution.

(** C5: when resolution from [(a, s)] under boundary [B] has followed
    re-exports to [(cur, sym)] and the next re-export leads to an asset
    outside [B], the result is at [cur], under the name [sym], with the
    symbol undefined; nothing behind [next] is looked at. *)
Theorem boundary_stop g B a s cur sym next s' l :
  rtc (follows g (Some B)) (a, s) (cur, sym) ->
  exports g !! (cur, sym) = Some (ReExport next s' l) ->
  next ∉ members B ->
  exists r, getSymbolResolution g a s (Some B) = Some r /\
            asset r = cur /\ exportSymbol r = sym /\ symbol r = SymUndefined.
Proof.
  intros Hchain Hlook Hout.
  destruct (getSymbolResolution_total g (Some B) a s) as [r Hr].
  exists r. split; [exact Hr|].
  apply (resolution_along_chain g (Some B) (a, s) (cur, sym) Hchain next s' l Hlook) with
    (fuel := S (size (dom (exports g)))) (visited := ∅) (last := None).
  - simpl. unfold hasAsset. rewrite bool_decide_eq_false_2 by exact Hout. reflexivity.
  - intros v Hv. apply elem_of_empty in Hv. destruct Hv.
  - exact Hr.
Qed.

(** C6: when [A] re-exports [X] from [B] and [B] re-exports [X] from [A],
    resolving [X] on [A] ends, under any boundary, and the symbol of the
    result is undefined. *)
Theorem cycle_terminates g boundary A B X l1 l2 :
  exports g !! (A, X) = Some (ReExport B X l1) ->
  exports g !! (B, X) = Some (ReExport A X l2) ->
  exists r, getSymbolResolution g A X boundary = Some r /\ symbol r = SymUndefined.
Proof.
  intros HA HB.
  destruct (getSymbolResolution_total g boundary A X) as [r Hr].
  exists r. split; [exact Hr|].
  assert (exists r3, resolution g boundary 3 ∅ A X None = Some r3 /\
                     symbol r3 = SymUndefined) as (r3 & H3 & Hsym).
  { simpl. rewrite decide_False by set_solver. rewrite HA.
    destruct (leaves boundary B); [eauto|].
    destruct (decide ((B, X) ∈ _)); [eauto|]. rewrite HB.
    destruct (leaves boundary A); [eauto|].
    rewrite decide_True by set_solver. eauto. }
  rewrite (resolution_fuel _ _ _ _ _ _ _ _ _ _ Hr H3). exact Hsym.
Qed.

End ResolverFacts.

Module ResolverWitnesses.

Import Resolver ResolverFacts.

Lemma boundary_stop_witness :
  exists r, getSymbolResolution chain_graph "a" "x" (Some chain_bundle) = Some r /\
            asset r = "b" /\ exportSymbol r = "y" /\ symbol r = SymUndefined.
Proof.
  apply (boundary_stop chain_graph chain_bundle "a" "x" "b" "y" "c" "z" None).
  - eapply rtc_l; [|apply rtc_refl].
    exists None. split; vm_compute; reflexivity.
  - vm_compute. reflexivity.
  - vm_compute. intros H. discriminate H.
Defined.

Lemma cycle_terminates_witness :
  exists r, getSymbolResolution cycle_graph "a" "x" None = Some r /\
            symbol r = SymUndefined.
Proof.
  apply (cycle_terminates cycle_graph None "a" "b" "x" None None);
    vm_compute; reflexivity.
Defined.

End ResolverWitnesses.

(** * Facts about bundle creation *)

Module BundlerFacts.

Import Bundler.

(** C9: a bundle created with an entry asset has the type, the environment
    and the identity of that asset; without an entry asset the options hold
    a unique key, a type and an environment, and the bundle has those; in
    both cases the bundle contains no asset. *)
Theorem createBundle_infers_or_requires opts :
  let b := createBundle opts in
  (forall a, entryAsset_of opts = Some a ->
     bundle_type b = type a /\ bundle_env b = env a /\
     bundle_id b = id_from (id a)) /\
  (entryAsset_of opts = None ->
     exists k t e,
       uniqueKey_of opts = Some k /\ type_of opts = Some t /\ env_of opts = Some e /\
       bundle_id b = id_from k /\ bundle_type b = t /\ bundle_env b = e) /\
  assets b = ∅ /\ forall a, hasAsset b a = false.
Proof.
  assert (forall b, assets b = ∅ -> forall a, hasAsset b a = false) as Hnone.
  { intros b Hb a. unfold hasAsset. rewrite Hb.
    apply bool_decide_eq_false_2, not_elem_of_empty. }
  destruct opts as [k a t e c|k [a|] t e c]; simpl.
  - split; [intros ? [= <-]; auto|]. split; [discriminate|]. split; auto.
  - split; [intros ? [= <-]; auto|]. split; [discriminate|]. split; auto.
  - split; [discriminate|]. split; [|split; auto].
    intros _. exists k, t, e. repeat split; reflexivity.
Qed.

Lemma createBundle_infers_or_requires_witness :
  bundle_type (createBundle from_asset) = "js" /\
  bundle_id (createBundle from_asset) = id_from "a1" /\
  exists k t e,
    uniqueKey_of from_key = Some k /\ type_of from_key = Some t /\
    env_of from_key = Some e /\
    bundle_id (createBundle from_key) = id_from k /\
    bundle_type (createBundle from_key) = t /\ bundle_env (createBundle from_key) = e.
Proof.
  destruct (createBundle_infers_or_requires from_asset) as (H1 & _).
  destruct (createBundle_infers_or_requires from_key) as (_ & H2 & _).
  destruct (H1 sample_asset eq_refl) as (Ht & _ & Hi).
  split; [exact Ht|]. split; [exact Hi|]. exact (H2 eq_refl).
Defined.

End BundlerFacts.

(** * The life of a committed asset *)

Module AssetLife.

Import Store StoreFacts.

Lemma held_grows s m m' : slots_grow m m' -> held s m <= held s m'.
Proof.
  intros H. unfold held. specialize (H s).
  destruct (slot s m); [|lia]. destruct H as [? ->]; eauto.
Qed.

(** Events of cost [E] that only the first filling of [s] may emit occur
    at most once in the life of an asset. *)
Lemma licensed_lifetime env this E s :
  (forall x m, potential E no_slot (held s m) m ->
     potential E no_slot (held s (fst (exec (body env this x) m)))
       (fst (exec (body env this x) m))) ->
  forall acts, spent E (log (lifetime env this acts)) <= 1.
Proof.
  intros Hcall acts.
  assert (forall acts m, potential E no_slot (held s m) m ->
     let m' := fold_left (act env this) acts m in
     potential E no_slot (held s m') m') as Hinv.
  { clear acts. induction acts as [|a acts IH]; intros m Hm; simpl; auto.
    apply IH. destruct a as [x|]; cbn [act].
    - apply Hcall, Hm.
    - destruct (tick env this m) as [m'|] eqn:Et; simpl; auto.
      eapply potential_le; [eapply tick_potential; eauto|].
      apply held_grows. eapply tick_slots_grow; eauto. }
  specialize (Hinv acts fresh). cbv zeta in Hinv. fold (lifetime env this acts) in Hinv.
  destruct Hinv as (bw & bq & _ & _ & Hle);
    [eapply potential_le; [apply potential_fresh|lia]|].
  unfold held in Hle. destruct (slot s _); lia.
Qed.

(** Events that no method can emit never occur. *)
Lemma unlicensed_lifetime env this E :
  (forall x, spends E no_slot 0 (body env this x)) ->
  forall acts, spent E (log (lifetime env this acts)) = 0.
Proof.
  intros Hcall acts.
  assert (forall acts m, potential E no_slot 0 m ->
     potential E no_slot 0 (fold_left (act env this) acts m)) as Hinv.
  { clear acts. induction acts as [|a acts IH]; intros m Hm; simpl; auto.
    apply IH. destruct a as [x|]; cbn [act].
    - destruct (exec_spends _ _ 0 _ (Hcall x) _ m Hm) as (N' & nc & H & _ & Hle).
      eapply potential_le; eauto. lia.
    - destruct (tick env this m) as [m'|] eqn:Et; simpl; auto.
      eapply tick_potential; eauto. }
  destruct (Hinv acts fresh) as (bw & bq & _ & _ & Hle); [apply potential_fresh|].
  fold (lifetime env this acts) in Hle. lia.
Qed.

Lemma only_event_same ev : only_event ev ev = 1.
Proof. unfold only_event. rewrite decide_True; auto. Qed.

Lemma only_event_other ev ev' : ev' <> ev -> only_event ev ev' = 0.
Proof. intros. unfold only_event. rewrite decide_False; auto. Qed.

(** As [spends0], with the cost of an event looked up by [cost]. *)
Ltac spends_with E W cost :=
  repeat first
    [ apply spends_Return | apply spends_Throw
    | rewrite andb_false_r
    | apply spends_ReadSlot; intro
    | apply spends_BufferStream; intro
    | apply spends_PromiseResolve; intro
    | apply spends_Await; intro
    | apply (spends_WriteSlot E W 0 0); [|reflexivity]
    | apply (spends_CacheGetBlob E W 0 0); [intro|cost]
    | apply (spends_CacheGetStream E W 0 0); [intro|cost]
    | apply (spends_GenerateFromAST E W 0 0); [intro|cost]
    | apply (spends_LogEvent E W 0 0); [|cost]
    | apply (spends_Then E W 0 0 0); [intro|intro|reflexivity]
    | apply (spends_Async E W 0 0 0); [|intro|reflexivity]
    | apply (spends_bind E W 0 0 0); [|intro|reflexivity]
    | match goal with
      | |- spends _ _ _ (match ?x with _ => _ end) => destruct x
      | |- spends _ _ _ (match ?x with _ => _ end _) => destruct x
      | |- spends _ _ _ (if ?x then _ else _) => destruct x
      end
    | progress cbn ].

Ltac plain_cost := reflexivity.

Ltac other_event :=
  first [ reflexivity
        | rewrite only_event_other by congruence; reflexivity ].

(** *** The serialized AST *)

Lemma getAST_licensed this E m :
  (forall ak, astKey this = Some ak -> E (EvGetBlob ak) + E EvDeserializeRaw <= 1) ->
  potential E no_slot (held Ast m) m ->
  potential E no_slot (held Ast (fst (exec (getAST this) m)))
    (fst (exec (getAST this) m)).
Proof.
  intros HE Hm. destruct (astKey this) as [ak|] eqn:Hk.
  - unfold held in *. cbn [slot] in *. destruct (ast m) as [p|] eqn:Ha.
    + rewrite (getAST_memoized this m ak p Hk Ha). cbn [fst]. rewrite Ha. exact Hm.
    + destruct (getAST_fills this ak m Hk) as (p & _ & Hfill). cbn [slot] in Hfill.
      rewrite Hfill. revert Hfill. unfold getAST. rewrite Hk. cbn [exec slot].
      rewrite Ha. intros _.
      match goal with |- potential _ _ _ (fst (exec ?p0 _)) => set (prog := p0) end.
      assert (spends E no_slot 1 prog) as Hp.
      { specialize (HE ak eq_refl).
        apply (spends_CacheGetBlob _ _ 1 (E EvDeserializeRaw)); [intro|lia].
        apply (spends_Then _ _ _ (E EvDeserializeRaw) 0); [intro|intro|lia].
        - apply (spends_LogEvent _ _ _ 0); [apply spends_Return|lia].
        - spends0 E no_slot. }
      destruct (exec_spends _ _ 1 prog Hp _ m Hm) as (N' & nc & H & _ & Hle).
      eapply potential_le; [exact H|lia].
  - assert (spends E no_slot 0 (getAST this)) as Hp.
    { unfold getAST. rewrite Hk. spends0 E no_slot. }
    destruct (exec_spends _ _ 0 _ Hp _ m Hm) as (N' & nc & H & _ & Hle).
    eapply potential_le; [exact H|].
    pose proof (held_grows Ast m _ (exec_slots_grow (getAST this) m)). lia.
Qed.

Lemma others_never_deserialize (env : Env) this x :
  x <> MgetAST -> spends (only_event EvDeserializeRaw) no_slot 0 (body env this x).
Proof.
  intros Hx. destruct this as [ck mk ak]; simpl in *; subst.
  destruct x; try done; open_methods.
  all: spends0 (only_event EvDeserializeRaw) no_slot.
Qed.

Lemma others_never_read (env : Env) this key x :
  match x with
  | MgetCode => contentKey this <> Some key
  | MgetMapBuffer | MgetMap => mapKey this <> Some key
  | MgetAST => astKey this <> Some key
  | _ => True
  end ->
  spends (only_event (EvGetBlob key)) no_slot 0 (body env this x).
Proof.
  intros Hx. destruct this as [ck mk ak]; simpl in *.
  destruct x; open_methods.
  all: spends_with (only_event (EvGetBlob key)) no_slot other_event.
Qed.

Lemma licensed_call E s p m :
  spends E no_slot 0 p -> potential E no_slot (held s m) m ->
  potential E no_slot (held s (fst (exec p m))) (fst (exec p m)).
Proof.
  intros Hp Hm.
  destruct (exec_spends _ _ 0 _ Hp _ m Hm) as (N' & nc & H & _ & Hle).
  eapply potential_le; [exact H|].
  pose proof (held_grows s m _ (exec_slots_grow p m)). lia.
Qed.

Lemma ast_deserialized_once env this acts :
  occurrences EvDeserializeRaw (log (lifetime env this acts)) <= 1.
Proof.
  apply (licensed_lifetime env this (only_event EvDeserializeRaw) Ast).
  intros x m Hm. destruct (decide (x = MgetAST)) as [->|Hx].
  - apply getAST_licensed; [|exact Hm]. intros. reflexivity.
  - apply licensed_call; [|exact Hm]. apply others_never_deserialize, Hx.
Qed.

Lemma ast_read_once env this ak acts :
  astKey this = Some ak -> contentKey this <> Some ak -> mapKey this <> Some ak ->
  occurrences (EvGetBlob ak) (log (lifetime env this acts)) <= 1.
Proof.
  intros Hk Hc Hm.
  apply (licensed_lifetime env this (only_event (EvGetBlob ak)) Ast).
  intros x m Hp. destruct (decide (x = MgetAST)) as [->|Hx].
  - apply getAST_licensed; [|exact Hp]. intros ak' Hk'.
    rewrite Hk in Hk'. injection Hk' as <-. rewrite only_event_same. reflexivity.
  - apply licensed_call; [|exact Hp]. apply others_never_read.
    destruct x; auto.
Qed.

(** X1: when the AST key differs from the other two keys, the serialized
    AST is read from the cache at most once and deserialized at most once
    in the life of the asset. *)
Theorem ast_read_and_deserialized_once env this ak acts :
  astKey this = Some ak -> contentKey this <> Some ak -> mapKey this <> Some ak ->
  occurrences (EvGetBlob ak) (log (lifetime env this acts)) <= 1 /\
  occurrences EvDeserializeRaw (log (lifetime env this acts)) <= 1.
Proof.
  intros Hk Hc Hm. split; [apply ast_read_once; auto|apply ast_deserialized_once].
Qed.

Lemma ast_read_and_deserialized_once_witness :
  occurrences (EvGetBlob "ast")
    (log (lifetime stocked_env all_keys [Call MgetAST; Turn; Call MgetAST; Turn])) <= 1 /\
  occurrences EvDeserializeRaw
    (log (lifetime stocked_env all_keys [Call MgetAST; Turn; Call MgetAST; Turn])) <= 1.
Proof.
  apply (ast_read_and_deserialized_once stocked_env all_keys "ast");
    [reflexivity|discriminate|discriminate].
Defined.

(** *** The map blob and the fallback generation *)

Lemma getMapBuffer_licensed this E m :
  (forall mk, mapKey this = Some mk -> E (EvGetBlob mk) + E EvGenerateFromAST <= 1) ->
  potential E no_slot (held MapBuffer m) m ->
  potential E no_slot (held MapBuffer (fst (exec (getMapBuffer this) m)))
    (fst (exec (getMapBuffer this) m)).
Proof.
  intros HE Hm. destruct (mapKey this) as [mk|] eqn:Hk.
  - unfold held in *. cbn [slot] in *. destruct (mapBuffer m) as [p|] eqn:Hb.
    + rewrite (getMapBuffer_memoized this m p Hb). cbn [fst]. rewrite Hb. exact Hm.
    + destruct (getMapBuffer_fills this mk m Hk) as (p & _ & Hfill). cbn [slot] in Hfill.
      rewrite Hfill. revert Hfill. unfold getMapBuffer. rewrite Hk. cbn [exec slot].
      rewrite Hb. intros _.
      match goal with |- potential _ _ _ (fst (exec ?p0 _)) => set (prog := p0) end.
      assert (spends E no_slot 1 prog) as Hp.
      { specialize (HE mk eq_refl).
        apply (spends_Async _ _ 1 1 0); [|intro; spends0 E no_slot|reflexivity].
        apply (spends_CacheGetBlob _ _ 1 (E EvGenerateFromAST)); [intro|lia].
        apply spends_Await; intro; [apply spends_Return|].
        destruct (_ && _); [|apply spends_Throw].
        apply (spends_GenerateFromAST _ _ _ 0); [intro|lia].
        apply spends_Await; intro; [apply spends_Return|apply spends_Throw]. }
      destruct (exec_spends _ _ 1 prog Hp _ m Hm) as (N' & nc & H & _ & Hle).
      eapply potential_le; [exact H|lia].
  - apply licensed_call; [|exact Hm].
    unfold getMapBuffer. rewrite Hk. spends0 E no_slot.
Qed.

Lemma getMap_licensed (env : Env) this E m :
  (forall mk, mapKey this = Some mk -> E (EvGetBlob mk) + E EvGenerateFromAST <= 1) ->
  E EvNewSourceMap = 0 ->
  potential E no_slot (held MapBuffer m) m ->
  potential E no_slot (held MapBuffer (fst (exec (getMap env this) m)))
    (fst (exec (getMap env this) m)).
Proof.
  intros HE Hdec Hm. destruct (map m) as [q|] eqn:Hmap.
  - rewrite (getMap_memoized env this m q Hmap). exact Hm.
  - destruct (getMap_first_call env this m Hmap) as [p ->].
    assert (potential E no_slot (held MapBuffer (snd (alloc m))) (snd (alloc m))) as H1.
    { apply potential_alloc. exact Hm. }
    pose proof (getMapBuffer_licensed this E _ HE H1) as H2.
    set (m2 := fst (exec (getMapBuffer this) (snd (alloc m)))) in *.
    assert (rx_spends E no_slot 0 (p, MkReaction (getMap_rest env) Throw (next m))) as Hrx.
    { split; cbn; intros; [|apply spends_Throw]. unfold getMap_rest.
      destruct (truthy _); [|apply spends_Return].
      apply (spends_LogEvent _ _ 0 0); [|lia].
      destruct (new_SourceMap env _); [apply spends_Throw|apply spends_Return]. }
    pose proof (potential_subscribe _ _ _ 0 _ p _ H2 Hrx) as H3.
    pose proof (potential_set_slot _ _ _ _ Map (next m) H3) as H4.
    eapply potential_le; [exact H4|].
    unfold held. 
    change (slot MapBuffer (set_slot Map (next m)
              (subscribe p (MkReaction (getMap_rest env) Throw (next m)) m2)))
      with (mapBuffer (subscribe p (MkReaction (getMap_rest env) Throw (next m)) m2)).
    change (mapBuffer (subscribe p (MkReaction (getMap_rest env) Throw (next m)) m2))
      with (slot MapBuffer (subscribe p (MkReaction (getMap_rest env) Throw (next m)) m2)).
    rewrite slot_subscribe. unfold held, no_slot. simpl. lia.
Qed.

Lemma content_accessors_generate (env : Env) this x :
  contentKey this <> None \/ astKey this = None ->
  x <> MgetMapBuffer -> x <> MgetMap ->
  spends (only_event EvGenerateFromAST) no_slot 0 (body env this x).
Proof.
  intros Hk Hx Hy. destruct this as [ck mk ak]; simpl in *.
  destruct x; try done; open_methods.
  all: destruct ck as [ck|]; [|destruct ak as [ak|]; [destruct Hk; done|]].
  all: spends0 (only_event EvGenerateFromAST) no_slot.
Qed.

Lemma map_accessors_generate (env : Env) this x :
  astKey this = None \/ mapKey this = None ->
  x = MgetMapBuffer \/ x = MgetMap ->
  spends (only_event EvGenerateFromAST) no_slot 0 (body env this x).
Proof.
  intros Hk Hx. destruct this as [ck mk ak]; simpl in *.
  destruct Hk as [-> | ->], Hx as [-> | ->]; open_methods.
  all: spends_with (only_event EvGenerateFromAST) no_slot plain_cost.
Qed.

(** X2: an asset without an AST key never runs the code generator, and
    neither does one with a content key and no map key: with a content key
    only the fallback in [getMapBuffer] generates. *)
Theorem generator_never_called env this acts :
  astKey this = None \/ (contentKey this <> None /\ mapKey this = None) ->
  occurrences EvGenerateFromAST (log (lifetime env this acts)) = 0.
Proof.
  intros Hk. apply (unlicensed_lifetime env this (only_event EvGenerateFromAST)).
  intros x.
  destruct (decide (x = MgetMapBuffer \/ x = MgetMap)) as [Hx|Hx].
  - apply map_accessors_generate; [|exact Hx]. tauto.
  - apply content_accessors_generate; [tauto| |]; intros ->; tauto.
Qed.

Lemma generator_never_called_witness :
  occurrences EvGenerateFromAST
    (log (lifetime sample_env content_only
            [Call MgetCode; Turn; Call MgetBuffer; Turn; Call MgetMap])) = 0.
Proof. apply generator_never_called. left. reflexivity. Defined.

(** X3: in the whole life of an asset that has a content key the code
    generator runs at most once, however the accessors are called. *)
Theorem generator_called_once env this acts :
  contentKey this <> None ->
  occurrences EvGenerateFromAST (log (lifetime env this acts)) <= 1.
Proof.
  intros Hk.
  apply (licensed_lifetime env this (only_event EvGenerateFromAST) MapBuffer).
  intros x m Hp.
  destruct (decide (x = MgetMapBuffer)) as [->|Hx];
    [apply getMapBuffer_licensed; [intros; reflexivity|exact Hp]|].
  destruct (decide (x = MgetMap)) as [->|Hy];
    [apply getMap_licensed; [intros; reflexivity|reflexivity|exact Hp]|].
  apply licensed_call; [|exact Hp]. apply content_accessors_generate; auto.
Qed.

Lemma generator_called_once_witness :
  occurrences EvGenerateFromAST
    (log (lifetime stocked_env all_keys
            [Call MgetMap; Call MgetMapBuffer; Turn; Turn; Turn; Turn;
             Call MgetBuffer; Call MgetMapBuffer])) <= 1.
Proof. apply generator_called_once. discriminate. Defined.

(** X4: when the map key differs from the other two keys, the cache is
    asked for the map blob at most once in the life of the asset, by
    whichever of [getMapBuffer] and [getMap] is called first. *)
Theorem map_read_once env this mk acts :
  mapKey this = Some mk -> contentKey this <> Some mk -> astKey this <> Some mk ->
  occurrences (EvGetBlob mk) (log (lifetime env this acts)) <= 1.
Proof.
  intros Hk Hc Ha.
  apply (licensed_lifetime env this (only_event (EvGetBlob mk)) MapBuffer).
  assert (forall mk', mapKey this = Some mk' ->
            only_event (EvGetBlob mk) (EvGetBlob mk') +
            only_event (EvGetBlob mk) EvGenerateFromAST <= 1) as HE.
  { intros mk' Hk'. rewrite Hk in Hk'. injection Hk' as <-.
    rewrite only_event_same. reflexivity. }
  intros x m Hp.
  destruct (decide (x = MgetMapBuffer)) as [->|Hx];
    [apply getMapBuffer_licensed; [exact HE|exact Hp]|].
  destruct (decide (x = MgetMap)) as [->|Hy];
    [apply getMap_licensed; [exact HE|reflexivity|exact Hp]|].
  apply licensed_call; [|exact Hp]. apply others_never_read.
  destruct x; auto.
Qed.

Lemma map_read_once_witness :
  occurrences (EvGetBlob "nomap")
    (log (lifetime stocked_env all_keys
            [Call MgetMap; Call MgetMapBuffer; Turn; Turn; Call MgetMap])) <= 1.
Proof.
  apply (map_read_once stocked_env all_keys "nomap");
    [reflexivity|discriminate|discriminate].
Defined.

(** *** The content blob *)

Lemma exec_async_read s K m :
  exec (async (ReadSlot s K)) m = exec (async (K (slot s m))) m.
Proof. unfold async. cbn [exec alloc]. destruct s; reflexivity. Qed.

Lemma getCode_licensed this ck m :
  contentKey this = Some ck ->
  potential (only_event (EvGetBlob ck)) no_slot (held Content m) m ->
  potential (only_event (EvGetBlob ck)) no_slot
    (held Content (fst (exec (getCode this) m))) (fst (exec (getCode this) m)).
Proof.
  intros Hk Hm. unfold getCode. rewrite exec_async_read. rewrite Hk. cbn [slot].
  destruct (content m) as [p|] eqn:Hc.
  - apply licensed_call; [|exact Hm].
    destruct this as [ck' mk ak]; simpl in *. subst ck'.
    unfold async, getContent, await, getCode_rest, call. cbn.
    spends0 (only_event (EvGetBlob ck)) no_slot.
  - match goal with |- potential _ _ _ (fst (exec ?p0 _)) => set (prog := p0) end.
    assert (held Content (fst (exec prog m)) = 1) as ->.
    { subst prog. unfold async, await, held. cbn. unfold subscribe.
      destruct (outcome _ _); reflexivity. }
    assert (spends (only_event (EvGetBlob ck)) no_slot 1 prog) as Hp.
    { subst prog. unfold async.
      apply (spends_Async _ _ 1 1 0); [|intro; apply spends_Return|reflexivity].
      apply (spends_CacheGetBlob _ _ 1 0); [intro|rewrite only_event_same; reflexivity].
      unfold await, getCode_rest, call.
      spends0 (only_event (EvGetBlob ck)) no_slot. }
    destruct (exec_spends _ _ 1 prog Hp _ m Hm) as (N' & nc & H & _ & Hle).
    eapply potential_le; [exact H|]. unfold held in Hle. cbn [slot] in Hle.
    rewrite Hc in Hle. lia.
Qed.

(** X5: when the content key differs from the other two keys, the cache
    is asked for the content blob at most once in the life of the asset:
    only [getCode] reads it, and only while [this.content] is unset. *)
Theorem content_read_once env this ck acts :
  contentKey this = Some ck -> mapKey this <> Some ck -> astKey this <> Some ck ->
  occurrences (EvGetBlob ck) (log (lifetime env this acts)) <= 1.
Proof.
  intros Hk Hm Ha.
  apply (licensed_lifetime env this (only_event (EvGetBlob ck)) Content).
  intros x m Hp.
  destruct (decide (x = MgetCode)) as [->|Hx];
    [apply getCode_licensed; [exact Hk|exact Hp]|].
  apply licensed_call; [|exact Hp]. apply others_never_read.
  destruct x; auto.
Qed.

Lemma content_read_once_witness :
  occurrences (EvGetBlob "content")
    (log (lifetime stocked_env all_keys
            [Call MgetCode; Call MgetCode; Turn; Turn; Call MgetBuffer; Call MgetCode])) <= 1.
Proof.
  apply (content_read_once stocked_env all_keys "content");
    [reflexivity|discriminate|discriminate].
Defined.


(** *** First calls on a fresh asset *)



(** X7: on a fresh asset with a content key, [getBuffer] opens the cache
    stream, resolves to its bytes and leaves the promise of those bytes in
    [this.content]; when the stream fails it rejects with that error.  A
    second [getBuffer], made after the first has completed, opens no
    stream, leaves [this.content] as it is and settles alike. *)
Theorem getBuffer_buffers_stream_once env this ck :
  contentKey this = Some ck ->
  let (m0, c1) := exec (getBuffer this) fresh in
  let m1 := run env this 3 m0 in
  let (m1', c2) := exec (getBuffer this) m1 in
  let m2 := run env this 1 m1' in
  quiescent env this m1 /\ log m1 = [EvGetStream ck] /\
  settled c1 m1 = Some (as_buffer (cache_getStream env ck)) /\
  memo Content m1 = Some (as_buffer (cache_getStream env ck)) /\
  quiescent env this m2 /\ log m2 = [EvGetStream ck] /\
  settled c2 m2 = Some (as_buffer (cache_getStream env ck)) /\
  content m2 = content m1.
Proof.
  intros Hk. destruct this as [ck' mk ak], env as [gb gs gen].
  simpl in Hk. subst ck'. cbn [cache_getStream].
  eval_call. do 2 eval_tick.
  destruct (gs ck) as [err|b]; eval_run; cbv zeta; eval_call; eval_run;
    repeat split.
Qed.

Lemma getBuffer_buffers_stream_once_witness :
  let (m0, c1) := exec (getBuffer content_only) fresh in
  let m1 := run sample_env content_only 3 m0 in
  let (m1', c2) := exec (getBuffer content_only) m1 in
  let m2 := run sample_env content_only 1 m1' in
  quiescent sample_env content_only m1 /\ log m1 = [EvGetStream "content"] /\
  settled c1 m1 = Some (as_buffer (cache_getStream sample_env "content")) /\
  memo Content m1 = Some (as_buffer (cache_getStream sample_env "content")) /\
  quiescent sample_env content_only m2 /\ log m2 = [EvGetStream "content"] /\
  settled c2 m2 = Some (as_buffer (cache_getStream sample_env "content")) /\
  content m2 = content m1.
Proof.
  exact (getBuffer_buffers_stream_once sample_env content_only "content" eq_refl).
Defined.








(** X10: [this.content] is not written once.  When [getBuffer] and then
    [getCode] are called in one turn on a fresh asset with a content key,
    [getCode] stores the promise of the blob read, and [getBuffer], when
    it resumes, replaces it with the promise of the buffered stream: the
    cache is asked for the blob and for the stream, [getCode] resolves
    from the one and [getBuffer] from the other. *)
Theorem getBuffer_overwrites_content env this ck :
  contentKey this = Some ck ->
  let (ma, cB) := exec (getBuffer this) fresh in
  let (m0, cC) := exec (getCode this) ma in
  let m1 := run env this 5 m0 in
  quiescent env this m1 /\
  log m1 = [EvGetBlob ck; EvGetStream ck] /\
  is_Some (content m0) /\ content m1 <> content m0 /\
  memo Content m1 = Some (as_buffer (cache_getStream env ck)) /\
  settled cB m1 = Some (as_buffer (cache_getStream env ck)) /\
  settled cC m1 = Some (getCode_outcome env ck).
Proof.
  intros Hk. destruct this as [ck' mk ak], env as [gb gs gen].
  simpl in Hk. subst ck'. unfold getCode_outcome. cbn [cache_getStream cache_getBlob].
  eval_call. eval_call.
  do 2 eval_tick.
  destruct (gb ck) as [e1|b1]; eval_tick; eval_tick;
    destruct (gs ck) as [e2|b2]; eval_run; cbv zeta; repeat split; eauto; discriminate.
Qed.

Lemma getBuffer_overwrites_content_witness :
  let (ma, cB) := exec (getBuffer content_only) fresh in
  let (m0, cC) := exec (getCode content_only) ma in
  let m1 := run sample_env content_only 5 m0 in
  quiescent sample_env content_only m1 /\
  log m1 = [EvGetBlob "content"; EvGetStream "content"] /\
  is_Some (content m0) /\ content m1 <> content m0 /\
  memo Content m1 = Some (as_buffer (cache_getStream sample_env "content")) /\
  settled cB m1 = Some (as_buffer (cache_getStream sample_env "content")) /\
  settled cC m1 = Some (getCode_outcome sample_env "content").
Proof.
  exact (getBuffer_overwrites_content sample_env content_only "content" eq_refl).
Defined.

(** *** Memoized content *)





(** *** Who writes which slot *)


Lemma may_write_sound (env : Env) this x s :
  may_write this x s = false -> spends no_event (only_slot s) 0 (body env this x).
Proof.
  destruct this as [[ck|] [mk|] [ak|]]; unfold may_write;
    cbn [contentKey mapKey astKey]; destruct s, x; try discriminate; intros _;
    open_methods.
  all: match goal with
       | |- spends _ ?W _ _ => spends_with no_event W plain_cost
       end.
Qed.

Lemma never_written env this s acts :
  (forall x, Call x ∈ acts -> may_write this x s = false) ->
  slot s (lifetime env this acts) = None.
Proof.
  intros Hacts.
  assert (forall acts m,
            (forall x, Call x ∈ acts -> may_write this x s = false) ->
            quiet s m -> slot s m = None ->
            slot s (fold_left (act env this) acts m) = None) as Hinv.
  { clear acts Hacts. induction acts as [|a acts IH]; intros m Hacts Hq Hs; simpl; auto.
    assert (quiet s (act env this m a) /\ slot s (act env this m a) = slot s m)
      as [Hq' Hs'].
    { destruct a as [x|]; cbn [act].
      - apply quiet_call; [|exact Hq]. apply may_write_sound, Hacts. left.
      - destruct (tick env this m) as [m'|] eqn:Et; simpl; [|auto].
        eapply quiet_turn; eauto. }
    apply IH; auto.
    - intros x Hx. apply Hacts. right. exact Hx.
    - rewrite Hs'. exact Hs. }
  apply Hinv; auto. - apply quiet_fresh. - destruct s; reflexivity.
Qed.

(** X12: a slot stays empty for as long as no method that may assign it
    is called.  So the map and AST accessors never fill [this.content]
    (the content that the fallback of [getMapBuffer] generates is dropped),
    the content accessors never fill [this.mapBuffer], [this.map] or
    [this.ast], and [getContent] and [getStream] fill nothing on an asset
    with a content key. *)
Theorem unwritten_slot_stays_empty env this s acts :
  never_calls_writer this s acts = true ->
  slot s (lifetime env this acts) = None.
Proof.
  intros H. apply never_written. intros x Hx.
  unfold never_calls_writer in H. rewrite forallb_forall in H.
  apply negb_true_iff. apply (H (Call x)). apply list_elem_of_In. exact Hx.
Qed.

Lemma unwritten_slot_stays_empty_witness :
  slot Content
    (lifetime stocked_env all_keys
       [Call MgetMapBuffer; Turn; Call MgetStream; Turn; Turn; Call MgetAST; Turn]) = None.
Proof. apply unwritten_slot_stays_empty. reflexivity. Defined.

(** *** Streams are not memoized *)




(** X13: on an asset with a content key, [getStream] memoizes nothing:
    in a life made of [getStream] calls and turns, every call opens a new
    cache stream, and the asset is otherwise as when it was created. *)
Theorem getStream_opens_every_time env this ck acts :
  contentKey this = Some ck ->
  Forall (fun a => a = Call MgetStream \/ a = Turn) acts ->
  lifetime env this acts = idle (repeat (EvGetStream ck) (calls_of MgetStream acts)).
Proof.
  intros Hk Hacts. unfold lifetime. change fresh with (idle []).
  change (repeat (EvGetStream ck) (calls_of MgetStream acts))
    with ([] ++ repeat (EvGetStream ck) (calls_of MgetStream acts))%list.
  generalize (@nil Event) as l.
  induction Hacts as [|a acts Ha _ IH]; intros l.
  - simpl. rewrite app_nil_r. reflexivity.
  - cbn [fold_left]. destruct Ha as [-> | ->].
    + assert (act env this (idle l) (Call MgetStream) = idle (l ++ [EvGetStream ck])) as ->.
      { cbn [act body]. unfold getStream, getContent. rewrite Hk. reflexivity. }
      rewrite IH. unfold calls_of. rewrite filter_cons_True by reflexivity.
      cbn [length repeat]. rewrite <- app_assoc. reflexivity.
    + assert (act env this (idle l) Turn = idle l) as -> by reflexivity.
      rewrite IH. unfold calls_of. rewrite filter_cons_False by discriminate.
      reflexivity.
Qed.

Lemma getStream_opens_every_time_witness :
  lifetime sample_env content_only [Call MgetStream; Turn; Call MgetStream] =
  idle (repeat (EvGetStream "content")
          (calls_of MgetStream [Call MgetStream; Turn; Call MgetStream])).
Proof.
  apply (getStream_opens_every_time sample_env content_only "content");
    [reflexivity|].
  constructor; [left; reflexivity|].
  constructor; [right; reflexivity|].
  constructor; [left; reflexivity|constructor].
Defined.

(** *** Synchronous errors *)

Lemma promise_accessors_return (env : Env) this m x :
  x <> MgetContent -> x <> MgetStream ->
  exists p, snd (exec (body env this x) m) = Normal (VPromise p).
Proof.
  intros H1 H2. destruct x; try done; cbn [body].
  - unfold getCode, async. cbn [exec alloc]. destruct (exec _ _). cbn. eauto.
  - unfold getBuffer, async. cbn [exec alloc]. destruct (exec _ _). cbn. eauto.
  - apply getMapBuffer_returns.
  - destruct (getMap_fills env this m) as (p & H & _). eauto.
  - destruct (astKey this) as [ak|] eqn:Hk.
    + destruct (getAST_fills this ak m Hk) as (p & H & _). eauto.
    + unfold getAST. rewrite Hk. cbn. eauto.
Qed.

Lemma getStream_returns this m :
  content m <> None \/ contentKey this <> None \/ astKey this <> None ->
  exists r, snd (exec (getStream this) m) = Normal (VReadable r).
Proof.
  intros H. unfold getStream, getContent. cbn [bind exec slot].
  destruct (content m) as [p|] eqn:Hc.
  - cbn. rewrite Hc. cbn. eauto.
  - destruct (contentKey this) as [ck|]; [cbn; eauto|].
    destruct (astKey this) as [ak|]; [cbn; eauto|].
    destruct H as [H|[H|H]]; done.
Qed.

(** X14: in every state, [getCode], [getBuffer], [getMapBuffer], [getMap]
    and [getAST] return a promise and throw nothing; [getStream] returns a
    stream unless the content is unset and the asset has neither a content
    key nor an AST key. *)
Theorem only_content_requests_throw (env : Env) this m :
  (forall x, x <> MgetContent -> x <> MgetStream ->
     exists p, snd (exec (body env this x) m) = Normal (VPromise p)) /\
  (content m <> None \/ contentKey this <> None \/ astKey this <> None ->
   exists r, snd (exec (getStream this) m) = Normal (VReadable r)).
Proof.
  split; [intros x; apply promise_accessors_return|apply getStream_returns].
Qed.

Lemma only_content_requests_throw_witness :
  exists r, snd (exec (getStream content_only) fresh) = Normal (VReadable r).
Proof.
  apply (proj2 (only_content_requests_throw sample_env content_only fresh)).
  right; left. discriminate.
Defined.

(** *** Assets without keys *)

(** X15: without an AST key, [this.ast] is never set, and every call of
    [getAST], at any point of the asset's life, returns a new promise
    that is already fulfilled with [null]; it reads nothing and starts no
    operation. *)
Theorem getAST_without_astKey env this acts :
  astKey this = None ->
  let m := lifetime env this acts in
  let (m', c) := exec (getAST this) m in
  ast m = None /\ c = Normal (VPromise (next m)) /\
  settled c m' = Some (Fulfilled VNull) /\
  log m' = log m /\ inflight m' = inflight m /\ ast m' = None.
Proof.
  intros Hk.
  assert (ast (lifetime env this acts) = None) as Ha.
  { apply (never_written env this Ast). intros x _.
    unfold may_write. rewrite Hk. destruct x; reflexivity. }
  cbv zeta. revert Ha. generalize (lifetime env this acts). intros m Ha.
  unfold getAST. rewrite Hk. cbn. rewrite Nat.eqb_refl. repeat split; exact Ha.
Qed.

Lemma getAST_without_astKey_witness :
  let m := lifetime sample_env content_only [Call MgetAST; Call MgetCode; Turn] in
  let (m', c) := exec (getAST content_only) m in
  ast m = None /\ c = Normal (VPromise (next m)) /\
  settled c m' = Some (Fulfilled VNull) /\
  log m' = log m /\ inflight m' = inflight m /\ ast m' = None.
Proof.
  exact (getAST_without_astKey sample_env content_only
           [Call MgetAST; Call MgetCode; Turn] eq_refl).
Defined.

Lemma keyless_step (env : Env) this m x :
  contentKey this = None -> astKey this = None ->
  quiet Content m -> content m = None ->
  quiet Content (fst (exec (body env this x) m)) /\
  content (fst (exec (body env this x) m)) = None.
Proof.
  intros Hc Ha Hq Hm.
  assert (may_write this x Content = false ->
          quiet Content (fst (exec (body env this x) m)) /\
          content (fst (exec (body env this x) m)) = None) as Hclean.
  { intros Hw. destruct (quiet_call Content _ m (may_write_sound env this x Content Hw) Hq)
      as [H1 H2]. split; [exact H1|]. cbn [slot] in H2. rewrite H2. exact Hm. }
  assert (forall r, quiet Content (settle r (Rejected NoContentError) (snd (alloc m))) /\
                    content (settle r (Rejected NoContentError) (snd (alloc m))) = None)
    as Hfail.
  { intros r. split; [|exact Hm].
    unfold quiet in *. rewrite filled_only_slot in *. cbn [slot] in *.
    change (content (settle r (Rejected NoContentError) (snd (alloc m))))
      with (content m).
    apply potential_settle, potential_alloc. exact Hq. }
  destruct x; try (apply Hclean; unfold may_write; rewrite ?Hc, ?Ha; reflexivity).
  - cbn [body]. assert (exec (getCode this) m =
              (settle (next m) (Rejected NoContentError) (snd (alloc m)),
               Normal (VPromise (next m)))) as ->; [|apply Hfail].
    unfold getCode, async, getContent. rewrite Hc, Ha. simpl. rewrite Hm. reflexivity.
  - cbn [body]. assert (exec (getBuffer this) m =
              (settle (next m) (Rejected NoContentError) (snd (alloc m)),
               Normal (VPromise (next m)))) as ->; [|apply Hfail].
    unfold getBuffer, async, getContent. rewrite Hc, Ha. simpl. rewrite Hm. reflexivity.
Qed.

Lemma keyless_content env this acts :
  contentKey this = None -> astKey this = None ->
  content (lifetime env this acts) = None.
Proof.
  intros Hc Ha.
  assert (forall acts m, quiet Content m -> content m = None ->
            content (fold_left (act env this) acts m) = None) as Hinv.
  { clear acts. induction acts as [|a acts IH]; intros m Hq Hm; simpl; auto.
    destruct a as [x|]; cbn [act].
    - destruct (keyless_step env this m x Hc Ha Hq Hm). apply IH; auto.
    - destruct (tick env this m) as [m'|] eqn:Et; simpl; [|auto].
      destruct (quiet_turn env this Content m m' Et Hq) as [H1 H2].
      apply IH; auto. cbn [slot] in H2. rewrite H2. exact Hm. }
  apply Hinv; [apply quiet_fresh|reflexivity].
Qed.

(** X16: an asset with neither a content key nor an AST key never has
    content.  At every point of its life [this.content] is unset,
    [getContent] and [getStream] throw "Asset has no content", and
    [getCode] and [getBuffer] return a promise that is already rejected
    with it. *)
Theorem keyless_asset_never_has_content env this acts :
  contentKey this = None -> astKey this = None ->
  let m := lifetime env this acts in
  content m = None /\
  exec (getContent this) m = (m, Abrupt NoContentError) /\
  exec (getStream this) m = (m, Abrupt NoContentError) /\
  (exists m', exec (getCode this) m = (m', Normal (VPromise (next m))) /\
              outcome (heap m') (next m) = Some (Rejected NoContentError)) /\
  (exists m', exec (getBuffer this) m = (m', Normal (VPromise (next m))) /\
              outcome (heap m') (next m) = Some (Rejected NoContentError)).
Proof.
  intros Hc Ha. pose proof (keyless_content env this acts Hc Ha) as Hm.
  cbv zeta. revert Hm. generalize (lifetime env this acts). intros m Hm.
  destruct this as [ck mk ak]; simpl in Hc, Ha; subst.
  split; [exact Hm|].
  unfold getStream, getCode, getBuffer, async, getContent. simpl.
  rewrite Hm. simpl.
  split; [reflexivity|]. split; [reflexivity|].
  split; (eexists; split; [reflexivity|apply outcome_here]).
Qed.

Lemma keyless_asset_never_has_content_witness :
  content (lifetime sample_env no_keys [Call MgetCode; Turn; Call MgetBuffer]) = None.
Proof.
  exact (proj1 (keyless_asset_never_has_content sample_env no_keys
                  [Call MgetCode; Turn; Call MgetBuffer] eq_refl eq_refl)).
Defined.

(** *** The event loop goes idle *)

Lemma lasts_le n p : lasts n p -> forall n', n <= n' -> lasts n' p.
Proof.
  induction 1 as [n v Hv| | | | | | | | | | | | ]; intros;
    [constructor; intros Hp; specialize (Hv Hp); lia|..];
    econstructor; eauto; lia.
Qed.

Lemma lasts_bind n a b m f :
  lasts a m -> (forall v, lasts b (f v)) -> a + b <= n -> lasts n (bind m f).
Proof.
  intros Hm Hf. revert n.
  induction Hm as [n v Hv|n e|n s k _ IH|n s p k _ IH|n n' key k _ IH Hle
                  |n key k _ IH|n n' k _ IH Hle|n n' r k _ IH Hle|n n' v k _ IH Hle
                  |n a' b' p cb k Hcb _ _ IH Hle|n a' b' bd k Hbd _ _ IH Hle
                  |n n' v k h _ IHk _ IHh Hle|n ev k _ IH];
    intros n0 Hle0; simpl.
  - eapply lasts_le; eauto. lia.
  - constructor.
  - constructor; intros; apply IH; lia.
  - constructor; apply IH; lia.
  - eapply (lasts_CacheGetBlob _ (n' + b)); [intros; apply IH; lia|lia].
  - constructor; intros; apply IH; lia.
  - eapply (lasts_GenerateFromAST _ (n' + b)); [intros; apply IH; lia|lia].
  - eapply (lasts_BufferStream _ (n' + b)); [intros; apply IH; lia|lia].
  - eapply (lasts_PromiseResolve _ (n' + b)); [intros; apply IH; lia|lia].
  - eapply (lasts_Then _ a' (b' + b)); eauto. lia.
  - eapply (lasts_Async _ a' (b' + b)); eauto. lia.
  - eapply (lasts_Await _ (n' + b));
      [intros; apply IHk; auto; lia|intros; apply IHh; lia|lia].
  - constructor; apply IH; lia.
Qed.

Lemma flat_outcome h p o :
  Forall (fun po => flat (snd po)) h -> outcome h p = Some o -> flat o.
Proof.
  induction 1 as [|[q o'] h Hq _ IH]; simpl; [done|].
  destruct (Nat.eqb p q); [intros [= <-]; exact Hq|exact IH].
Qed.

Lemma busy_le N N' m : busy N m -> N <= N' -> busy N' m.
Proof.
  intros (Hh & bw & bq & ? & ? & ?) ?. split; [exact Hh|].
  exists bw, bq. repeat split; auto. lia.
Qed.

Lemma busy_alloc N m : busy N m -> busy N (snd (alloc m)).
Proof. intros (Hh & bw & bq & ? & ? & ?). split; [exact Hh|]. exists bw, bq. auto. Qed.

Lemma busy_emit N m ev : busy N m -> busy N (emit ev m).
Proof. intros (Hh & bw & bq & ? & ? & ?). split; [exact Hh|]. exists bw, bq. auto. Qed.

Lemma busy_set_slot N m s p : busy N m -> busy N (set_slot s p m).
Proof.
  intros (Hh & bw & bq & ? & ? & ?).
  destruct s; (split; [exact Hh|]); exists bw, bq; auto.
Qed.

Lemma busy_start N m op : busy N m -> busy (S N) (snd (start op m)).
Proof.
  intros (Hh & bw & bq & ? & ? & ?). split; [exact Hh|]. exists bw, bq.
  repeat split; auto. simpl. rewrite length_app. simpl. lia.
Qed.

Lemma busy_enqueue N n m j :
  busy N m -> job_lasts n j -> busy (N + n) (enqueue j m).
Proof.
  intros (Hh & bw & bq & ? & ? & ?) ?. split; [exact Hh|].
  exists bw, (bq + (n + 0)). repeat split; auto.
  - simpl. apply budget_app; auto. repeat constructor; auto.
  - simpl. lia.
Qed.

Lemma busy_subscribe N n m p rx :
  busy N m -> rx_lasts n (p, rx) -> busy (N + n) (subscribe p rx m).
Proof.
  intros HN Hrx. unfold subscribe. destruct (outcome (heap m) p) as [o|] eqn:Ho.
  - apply busy_enqueue; auto.
    destruct Hrx as (n' & -> & Hf & Hr). exists n'. split; [reflexivity|].
    pose proof (flat_outcome _ _ _ (proj1 HN) Ho) as Hflat.
    destruct o; simpl; auto.
  - destruct HN as (Hh & bw & bq & ? & ? & ?). split; [exact Hh|].
    exists (bw + (n + 0)), bq. repeat split; auto.
    + simpl. apply budget_app; auto. repeat constructor; auto.
    + simpl. lia.
Qed.

Lemma budget_lasting_jobs o n l :
  flat o -> budget rx_lasts n l ->
  budget job_lasts n (List.map (fun w => job_of o (snd w)) l).
Proof.
  intros Ho. induction 1 as [|n k x l (n' & -> & Hf & Hr) Hl IH];
    [constructor|].
  cbn [List.map]. constructor; auto.
  exists n'. split; [reflexivity|]. destruct o; simpl; auto.
Qed.

Lemma busy_settle N m p o : flat o -> busy N m -> busy N (settle p o m).
Proof.
  intros Ho (Hh & bw & bq & Hw & Hq & Hle).
  destruct (budget_split rx_lasts (fun w => fst w = p) _ _ Hw)
    as (a & b & Ha & Hb & <-).
  split; [constructor; auto|].
  exists b, (bq + a). repeat split; simpl; auto.
  - apply budget_app; auto. apply budget_lasting_jobs; auto.
  - lia.
Qed.

Lemma busy_resolve N m r v : busy N m -> busy (S N) (resolve r v m).
Proof.
  intros HN.
  destruct v; simpl;
    try (eapply busy_le; [apply busy_settle; [reflexivity|exact HN]|lia]).
  replace (S N) with (N + 1) by lia. apply busy_subscribe; auto.
  exists 0. repeat split; simpl; intros.
  - constructor. congruence.
  - constructor.
Qed.

Lemma busy_resolve_flat N m r v :
  is_promise v = false -> busy N m -> busy N (resolve r v m).
Proof.
  intros Hv HN. destruct v; try discriminate; simpl; apply busy_settle; auto.
Qed.

Lemma busy_complete N n m r c :
  busy N m -> completion_lasts n c -> busy (N + n) (complete r c m).
Proof.
  intros HN Hc. destruct c as [v|e|v k h]; simpl.
  - destruct (is_promise v) eqn:Hv.
    + eapply busy_le; [apply busy_resolve; eauto|]. simpl in Hc. specialize (Hc Hv). lia.
    + eapply busy_le; [apply busy_resolve_flat; eauto|lia].
  - eapply busy_le; [apply busy_settle; [exact I|eauto]|lia].
  - destruct Hc as (n' & -> & Hk & Hh).
    destruct v; try (apply busy_enqueue; auto; exists n'; split; [reflexivity|];
                     simpl; apply Hk; reflexivity).
    apply busy_subscribe; auto. exists n'. repeat split; simpl; auto.
Qed.

Lemma exec_lasts n p :
  lasts n p -> forall N m, busy N m ->
  exists N' nc,
    busy N' (fst (exec p m)) /\
    completion_lasts nc (snd (exec p m)) /\ N' + nc <= N + n.
Proof.
  induction 1 as [n v Hv|n e|n s k _ IH|n s p k _ IH|n n' key k _ IH Hle
                  |n key k _ IH|n n' k _ IH Hle|n n' r k _ IH Hle|n n' v k _ IH Hle
                  |n a b p cb k Hcb _ _ IH Hle|n a b bd k _ IHb _ IHk Hle
                  |n n' v k h Hk _ Hh _ Hle|n ev k _ IH];
    intros N m HN; simpl.
  - exists N, n. split; [exact HN|]. split; [exact Hv|lia].
  - exists N, 0. split; [exact HN|]. split; [exact I|lia].
  - apply IH; auto.
  - apply IH. apply busy_set_slot; auto.
  - destruct (IH (next m) (S N)
                (snd (start (ExtGetBlob key) (emit (EvGetBlob key) m))))
      as (N' & nc & ? & ? & ?).
    { apply busy_start, busy_emit; auto. }
    exists N', nc. split; [assumption|]. split; [assumption|lia].
  - apply IH. apply busy_emit; auto.
  - destruct (IH (next m) (S N)
                (snd (start ExtGenerate (emit EvGenerateFromAST m))))
      as (N' & nc & ? & ? & ?).
    { apply busy_start, busy_emit; auto. }
    exists N', nc. split; [assumption|]. split; [assumption|lia].
  - destruct (IH (next m) (S N) (snd (start (ExtBufferStream r) m)))
      as (N' & nc & ? & ? & ?).
    { apply busy_start; auto. }
    exists N', nc. split; [assumption|]. split; [assumption|lia].
  - destruct (IH (next m) (S N) (resolve (next m) v (snd (alloc m))))
      as (N' & nc & ? & ? & ?).
    { apply busy_resolve, busy_alloc; auto. }
    exists N', nc. split; [assumption|]. split; [assumption|lia].
  - destruct (IH (next m) (N + S a)
                (subscribe p (MkReaction cb Throw (next m)) (snd (alloc m))))
      as (N' & nc & ? & ? & ?).
    { apply busy_subscribe; [apply busy_alloc; auto|].
      exists a. repeat split; simpl; auto. intros; constructor. }
    exists N', nc. split; [assumption|]. split; [assumption|lia].
  - pose proof (IHb N (snd (alloc m)) (busy_alloc _ _ HN))
      as (N1 & nc1 & H1 & Hc1 & Hle1).
    simpl in *. destruct (exec bd _) as [m2 c]. simpl in *.
    destruct (IHk (next m) (N1 + nc1) (complete (next m) c m2))
      as (N' & nc & ? & ? & ?).
    { apply busy_complete; auto. }
    exists N', nc. split; [assumption|]. split; [assumption|lia].
  - exists N, (S n'). split; [exact HN|]. split; [exists n'; auto|lia].
  - apply IH. apply busy_emit; auto.
Qed.

Lemma pick_shorter env this ops m p o rest :
  pick env this ops m = Some (p, o, rest) ->
  S (length rest) = length ops /\
  (Forall (fun po => flat (snd po)) (heap m) -> flat o).
Proof.
  revert p o rest. induction ops as [|[q op] ops IH]; intros p o rest; simpl; [done|].
  destruct (outcome_of env this op m) as [o'|] eqn:Ho.
  - intros [= <- <- <-]. split; [reflexivity|]. intros Hh.
    destruct op as [key| |[key|g|data]]; simpl in Ho.
    + injection Ho as <-. destruct (cache_getBlob env key); exact I || reflexivity.
    + injection Ho as <-. destruct (generateFromAST env this) as [|[]]; exact I || reflexivity.
    + injection Ho as <-. destruct (cache_getStream env key); exact I || reflexivity.
    + destruct (outcome (heap m) g) as [[v|e]|]; [| |done]; injection Ho as <-;
        exact I || reflexivity.
    + injection Ho as <-. reflexivity.
  - destruct (pick env this ops m) as [[[q' o''] rest']|]; [|done].
    intros [= <- <- <-]. destruct (IH _ _ _ eq_refl) as [H1 H2].
    split; [simpl; lia|exact H2].
Qed.

Lemma tick_busy env this N m m' :
  busy N m -> tick env this m = Some m' -> exists N', busy N' m' /\ S N' <= N.
Proof.
  intros (Hh & bw & bq & Hw & Hq & Hle). unfold tick.
  destruct (microtasks m) as [|job rest] eqn:Eq.
  - destruct (pick env this (inflight m) m) as [[[p o] rest]|] eqn:Ep; [|done].
    intros [= <-]. destruct (pick_shorter _ _ _ _ _ _ _ Ep) as [Hlen Hflat].
    exists (bw + bq + length rest). split; [|lia].
    apply busy_settle; [auto|]. split; [exact Hh|].
    exists bw, bq. simpl. rewrite Eq. auto.
  - intros [= <-]. inversion Hq as [|n k x l (n' & -> & Hjob) Hrest]; subst.
    destruct (exec_lasts n' (fst job) Hjob (bw + k + length (inflight m))
                (with_microtasks rest m)) as (N' & nc & HN' & Hc & Hle').
    { split; [exact Hh|]. exists bw, k. repeat split; auto. }
    unfold run_job. destruct (exec (fst job) _) as [m1 c]. simpl in *.
    exists (N' + nc). split; [apply busy_complete; eauto|lia].
Qed.

Lemma busy_fresh : busy 0 fresh.
Proof. split; [constructor|]. exists 0, 0. repeat split; try constructor. Qed.

Lemma busy_run env this N : forall m, busy N m -> quiescent env this (run env this N m).
Proof.
  induction N as [|N IH]; intros m Hm; simpl.
  - unfold quiescent. destruct (tick env this m) as [m'|] eqn:Et; [|reflexivity].
    destruct (tick_busy env this 0 m m' Hm Et) as (N' & _ & Hle). lia.
  - destruct (tick env this m) as [m'|] eqn:Et; [|exact Et].
    destruct (tick_busy env this (S N) m m' Hm Et) as (N' & HN' & Hle).
    apply IH. eapply busy_le; [exact HN'|lia].
Qed.

Ltac lasts_step :=
  lazymatch goal with
  | |- lasts _ (Return _) =>
      constructor;
      first [ discriminate
            | intros _; lia
            | repeat match goal with
                     | |- context [match ?x with _ => _ end] => destruct x
                     end; discriminate ]
  | |- lasts _ (Throw _) => constructor
  | |- lasts _ (ReadSlot _ _) => constructor; intro
  | |- lasts _ (WriteSlot _ _ _) => constructor
  | |- lasts _ (LogEvent _ _) => constructor
  | |- lasts _ (CacheGetStream _ _) => constructor; intro
  | |- lasts (S ?n) (CacheGetBlob _ _) =>
      apply (lasts_CacheGetBlob (S n) n); [intro|lia]
  | |- lasts (S ?n) (GenerateFromAST _) =>
      apply (lasts_GenerateFromAST (S n) n); [intro|lia]
  | |- lasts (S ?n) (BufferStream _ _) =>
      apply (lasts_BufferStream (S n) n); [intro|lia]
  | |- lasts (S ?n) (PromiseResolve _ _) =>
      apply (lasts_PromiseResolve (S n) n); [intro|lia]
  | |- lasts (S ?n) (Await _ _ _) =>
      apply (lasts_Await (S n) n); [intros ? ?|intro|lia]
  | |- lasts (S (S ?n)) (Then _ _ _) =>
      apply (lasts_Then (S (S n)) n 1); [intros ? ?|intro|lia]
  | |- lasts (S (S ?n)) (Async _ _) =>
      apply (lasts_Async (S (S n)) n 2); [|intro|lia]
  | |- lasts _ (match ?x with _ => _ end) => destruct x
  | |- lasts _ (match ?x with _ => _ end _) => destruct x
  | |- lasts _ (if ?x then _ else _) => destruct x
  end.

Lemma getContent_lasts this : lasts 5 (getContent this).
Proof.
  unfold getContent. repeat lasts_step.
Qed.

Lemma getCode_rest_lasts v : lasts 2 (getCode_rest v).
Proof.
  unfold getCode_rest, call, await. repeat lasts_step.
Qed.

Lemma getBuffer_rest_lasts v : lasts 2 (getBuffer_rest v).
Proof.
  unfold getBuffer_rest, call. repeat lasts_step.
Qed.

Lemma getMapBuffer_lasts this : lasts 6 (getMapBuffer this).
Proof.
  unfold getMapBuffer, await, out_map_toBuffer. repeat lasts_step.
Qed.

Lemma methods_last (env : Env) this x : lasts 10 (body env this x).
Proof.
  destruct x; cbn [body].
  - eapply lasts_le; [apply getContent_lasts|lia].
  - unfold getCode, async, await.
    apply (lasts_Async _ 9 1); [|intro; repeat lasts_step|lia].
    constructor; intros c. destruct c, (contentKey this).
    + apply (lasts_bind _ 5 3); [apply getContent_lasts| |lia]. intro.
      apply (lasts_Await _ 2); [intros; apply getCode_rest_lasts|intro; constructor|lia].
    + apply (lasts_bind _ 5 3); [apply getContent_lasts| |lia]. intro.
      apply (lasts_Await _ 2); [intros; apply getCode_rest_lasts|intro; constructor|lia].
    + do 3 lasts_step.
      apply (lasts_Await _ 2); [intros; apply getCode_rest_lasts|intro; constructor|lia].
    + apply (lasts_bind _ 5 3); [apply getContent_lasts| |lia]. intro.
      apply (lasts_Await _ 2); [intros; apply getCode_rest_lasts|intro; constructor|lia].
  - unfold getBuffer, async, await.
    apply (lasts_Async _ 9 1); [|intro; repeat lasts_step|lia].
    apply (lasts_bind _ 5 3); [apply getContent_lasts| |lia]. intro.
    apply (lasts_Await _ 2); [intros; apply getBuffer_rest_lasts|intro; constructor|lia].
  - unfold getStream.
    apply (lasts_bind _ 5 0); [apply getContent_lasts| |lia]. intro.
    unfold call. repeat lasts_step.
  - eapply lasts_le; [apply getMapBuffer_lasts|lia].
  - unfold getMap, await. constructor; intros mp. destruct mp.
    + repeat lasts_step.
    + apply (lasts_Async _ 7 1); [|intro; repeat lasts_step|lia].
      apply (lasts_bind _ 6 1); [apply getMapBuffer_lasts| |lia]. intro.
      apply (lasts_Await _ 0); [intros|intro; constructor|lia].
      unfold getMap_rest. repeat lasts_step.
  - unfold getAST. repeat lasts_step.
Qed.

Lemma lifetime_busy env this acts :
  busy (10 * calls_made acts) (lifetime env this acts).
Proof.
  unfold lifetime.
  assert (forall acts N m, busy N m ->
            busy (N + 10 * calls_made acts) (fold_left (act env this) acts m)) as Hinv.
  { clear acts. induction acts as [|a acts IH]; intros N m Hm.
    - simpl. eapply busy_le; [exact Hm|lia].
    - cbn [fold_left]. destruct a as [x|]; cbn [act calls_made].
      + eapply busy_le; [apply (IH (N + 10))|lia].
        destruct (exec_lasts 10 _ (methods_last env this x) N m Hm) as (N' & nc & H & _ & Hle).
        eapply busy_le; [exact H|lia].
      + apply IH. destruct (tick env this m) as [m'|] eqn:Et; simpl.
        * destruct (tick_busy env this N m m' Hm Et) as (N' & H & Hle).
          eapply busy_le; [exact H|lia].
        * exact Hm. }
  apply (Hinv acts 0 fresh busy_fresh).
Qed.

(** X17: the store never keeps the event loop busy for long.  However
    calls and turns were interleaved so far, the loop goes idle within ten
    turns for each call made: no accessor reschedules itself. *)
Theorem idle_within_ten_turns_per_call env this acts :
  quiescent env this
    (run env this (10 * calls_made acts) (lifetime env this acts)).
Proof. apply busy_run, lifetime_busy. Qed.

End AssetLife.
